(** * Tradescope: the trade-accounting core of [src/utils/portfolio.ts]

    A shallow embedding of [parseCSVData], [calculateFIFOPairs] and
    [calculatePositions], and the properties of the specification that are
    settled on it.

    Conventions of the embedding.
    - A JavaScript number is a [number]: NaN, the two infinities, or a finite
      value held as an exact rational.  The special values, and every test the
      code makes on them ([isNaN], [>], [<=], [===], [Math.min]), behave as in
      IEEE 754; finite arithmetic is exact (no rounding, no overflow, one
      zero).  This is an idealisation of binary64 arithmetic: the properties
      below are stated on what the code computes, operation by operation, and
      none of them asks for an identity that rounding would break; where
      rounding decides what the code does, the code is run on binary64 values
      ([Double]).
    - A JavaScript string is a [string] of 8-bit characters: the strings
      whose code units are below 256.
    - Objects that the code mutates through shared references (the [Trade]
      records) live in an explicit store and are named by references. *)

From Stdlib Require Import ZArith QArith Qreduction Lqa Lia List String Ascii Bool.
From Stdlib Require Import DecimalString DecimalNat Permutation Sorted Floats.
Import ListNotations.

Local Open Scope Z_scope.

(** ** JavaScript numbers *)

Module Number.

Inductive number : Type :=
| NaN
| PInf
| NInf
| Fin (q : Q).

(** Finite results are kept in lowest terms, so that equal values are equal
    terms. *)
Definition fin (q : Q) : number := Fin (Qred q).

Definition zero : number := Fin 0.
Definition ofZ (z : Z) : number := Fin (inject_Z z).

Definition isNaN (a : number) : bool :=
  match a with NaN => true | _ => false end.

Definition isFinite (a : number) : bool :=
  match a with Fin _ => true | _ => false end.

Definition Qltb (a b : Q) : bool :=
  match (a ?= b)%Q with Lt => true | _ => false end.

Definition neg (a : number) : number :=
  match a with
  | NaN => NaN
  | PInf => NInf
  | NInf => PInf
  | Fin q => fin (- q)
  end.

Definition add (a b : number) : number :=
  match a, b with
  | NaN, _ | _, NaN => NaN
  | PInf, NInf | NInf, PInf => NaN
  | PInf, _ | _, PInf => PInf
  | NInf, _ | _, NInf => NInf
  | Fin x, Fin y => fin (x + y)
  end.

Definition sub (a b : number) : number :=
  match a, b with
  | NaN, _ | _, NaN => NaN
  | PInf, PInf | NInf, NInf => NaN
  | PInf, _ | _, NInf => PInf
  | NInf, _ | _, PInf => NInf
  | Fin x, Fin y => fin (x - y)
  end.

(** Sign of an infinity multiplied or divided by a finite value; the single
    zero of the model is the positive one. *)
Definition signed (positive : bool) : number :=
  if positive then PInf else NInf.

Definition mul (a b : number) : number :=
  match a, b with
  | NaN, _ | _, NaN => NaN
  | PInf, PInf | NInf, NInf => PInf
  | PInf, NInf | NInf, PInf => NInf
  | PInf, Fin y | Fin y, PInf =>
      if Qeq_bool y 0 then NaN else signed (Qltb 0 y)
  | NInf, Fin y | Fin y, NInf =>
      if Qeq_bool y 0 then NaN else signed (Qltb y 0)
  | Fin x, Fin y => fin (x * y)
  end.

Definition div (a b : number) : number :=
  match a, b with
  | NaN, _ | _, NaN => NaN
  | (PInf | NInf), (PInf | NInf) => NaN
  | PInf, Fin y => signed (negb (Qltb y 0))
  | NInf, Fin y => signed (Qltb y 0)
  | Fin _, (PInf | NInf) => zero
  | Fin x, Fin y =>
      if Qeq_bool y 0
      then (if Qeq_bool x 0 then NaN else signed (Qltb 0 x))
      else fin (x / y)
  end.

(** [a < b] *)
Definition ltb (a b : number) : bool :=
  match a, b with
  | NaN, _ | _, NaN => false
  | _, NInf => false
  | PInf, _ => false
  | NInf, _ => true
  | _, PInf => true
  | Fin x, Fin y => Qltb x y
  end.

(** [a > b] *)
Definition gtb (a b : number) : bool := ltb b a.

(** [a === b] *)
Definition eqb (a b : number) : bool :=
  match a, b with
  | PInf, PInf | NInf, NInf => true
  | Fin x, Fin y => Qeq_bool x y
  | _, _ => false
  end.

(** [a <= b] *)
Definition leb (a b : number) : bool := ltb a b || eqb a b.

(** [a !== b] *)
Definition neqb (a b : number) : bool := negb (eqb a b).

(** [Math.min(a, b)] *)
Definition Math_min (a b : number) : number :=
  match a, b with
  | NaN, _ | _, NaN => NaN
  | _, _ => if ltb b a then b else a
  end.

(** [Math.abs(a)] *)
Definition Math_abs (a : number) : number :=
  match a with
  | NaN => NaN
  | PInf | NInf => PInf
  | Fin q => if Qltb q 0 then fin (- q) else a
  end.

End Number.
Export Number.

Declare Scope num_scope.
Delimit Scope num_scope with num.
Bind Scope num_scope with number.
Infix "+" := add : num_scope.
Infix "-" := sub : num_scope.
Infix "*" := mul : num_scope.
Infix "/" := div : num_scope.

(** ** JavaScript strings *)

Module JSString.

Local Open Scope string_scope.

(** The white space and line terminators of ECMAScript among the code units
    below 256: TAB, LF, VT, FF, CR, SP and NBSP (U+00A0).  The others (U+FEFF,
    U+2028, ...) are not characters of the strings of the model. *)
Definition isWhiteSpace (c : ascii) : bool :=
  let n := nat_of_ascii c in
  ((9 <=? n)%nat && (n <=? 13)%nat) || Nat.eqb n 32 || Nat.eqb n 160.

Fixpoint trimStart (s : string) : string :=
  match s with
  | EmptyString => EmptyString
  | String c r => if isWhiteSpace c then trimStart r else s
  end.

Definition reverse (s : string) : string :=
  string_of_list_ascii (rev (list_ascii_of_string s)).

(** [s.trim()] *)
Definition trim (s : string) : string :=
  reverse (trimStart (reverse (trimStart s))).

Definition upper (c : ascii) : ascii :=
  let n := nat_of_ascii c in
  if (97 <=? n)%nat && (n <=? 122)%nat then ascii_of_nat (n - 32) else c.

(** [s.toUpperCase()] *)
Fixpoint toUpperCase (s : string) : string :=
  match s with
  | EmptyString => EmptyString
  | String c r => String (upper c) (toUpperCase r)
  end.

(** [s.replace(/[...]/g, '')]: every character of the class is removed. *)
Fixpoint removeAll (cls : ascii -> bool) (s : string) : string :=
  match s with
  | EmptyString => EmptyString
  | String c r => if cls c then removeAll cls r else String c (removeAll cls r)
  end.

(** [s.includes(c)] for a one-character pattern. *)
Fixpoint includes (c : ascii) (s : string) : bool :=
  match s with
  | EmptyString => false
  | String d r => Ascii.eqb c d || includes c r
  end.

(** [s.split(c)] for a one-character separator. *)
Fixpoint split (c : ascii) (s : string) : list string :=
  match s with
  | EmptyString => [EmptyString]
  | String d r =>
      if Ascii.eqb c d then EmptyString :: split c r
      else match split c r with
           | [] => [String d EmptyString]
           | p :: ps => String d p :: ps
           end
  end.

Definition digitValue (c : ascii) : option Z :=
  let n := nat_of_ascii c in
  if (48 <=? n)%nat && (n <=? 57)%nat then Some (Z.of_nat (n - 48)) else None.

Definition hexValue (c : ascii) : option Z :=
  let n := nat_of_ascii c in
  if (48 <=? n)%nat && (n <=? 57)%nat then Some (Z.of_nat (n - 48))
  else if (97 <=? n)%nat && (n <=? 102)%nat then Some (Z.of_nat (n - 87))
  else if (65 <=? n)%nat && (n <=? 70)%nat then Some (Z.of_nat (n - 55))
  else None.

(** The longest prefix of digits in the given radix: its value, how many
    digits it has, and the rest of the string. *)
Fixpoint digits (value : ascii -> option Z) (radix : Z) (acc : Z) (count : nat)
  (s : string) : Z * nat * string :=
  match s with
  | EmptyString => (acc, count, s)
  | String c r =>
      match value c with
      | Some d => digits value radix (radix * acc + d) (S count) r
      | None => (acc, count, s)
      end
  end.

(** An optional sign: [true] for a minus. *)
Definition signOf (s : string) : bool * string :=
  match s with
  | String "-" r => (true, r)
  | String "+" r => (false, r)
  | _ => (false, s)
  end.

Definition withSign (minus : bool) (q : Q) : number :=
  fin (if minus then - q else q).

(** [parseInt(s)] with no radix. *)
Definition parseInt (s : string) : number :=
  let '(minus, body) := signOf (trimStart s) in
  let decimal :=
    let '(v, n, _) := digits digitValue 10 0 0 body in
    match n with O => NaN | _ => withSign minus (inject_Z v) end in
  match body with
  | String "0" (String x r) =>
      if Ascii.eqb x "x" || Ascii.eqb x "X"
      then let '(v, n, _) := digits hexValue 16 0 0 r in
           match n with O => NaN | _ => withSign minus (inject_Z v) end
      else decimal
  | _ => decimal
  end.

Definition pow10 (e : Z) : Q :=
  if (0 <=? e)%Z then inject_Z (10 ^ e) else (/ inject_Z (10 ^ (- e)))%Q.

Definition startsWith (p s : string) : bool := String.prefix p s.

(** The exponent part of a decimal literal, [e] or [E], an optional sign and
    at least one digit; 0 when there is none. *)
Definition exponentOf (s : string) : Z :=
  match s with
  | String c r =>
      if Ascii.eqb c "e" || Ascii.eqb c "E"
      then let '(minus, r') := signOf r in
           let '(v, n, _) := digits digitValue 10 0 0 r' in
           match n with O => 0 | _ => if minus then - v else v end
      else 0
  | EmptyString => 0
  end.

(** [parseFloat(s)]: the longest prefix of the trimmed string that is a
    decimal literal, NaN when there is none. *)
Definition parseFloat (s : string) : number :=
  let '(minus, body) := signOf (trimStart s) in
  if startsWith "Infinity" body then (if minus then NInf else PInf)
  else
    let '(ip, ni, afterInt) := digits digitValue 10 0 0 body in
    let '(fp, nf, afterFrac) :=
      match afterInt with
      | String "." r => digits digitValue 10 0 0 r
      | _ => (0, O, afterInt)
      end in
    match ni, nf with
    | O, O => NaN
    | _, _ =>
        let mantissa :=
          (inject_Z ip + inject_Z fp * pow10 (- Z.of_nat nf))%Q in
        withSign minus (mantissa * pow10 (exponentOf afterFrac))%Q
    end.

End JSString.
Export JSString.

(** ** JavaScript dates

    A [Date] is its time value in milliseconds of local wall-clock time, or
    [None] for an Invalid Date (whose [getTime()] is NaN). *)

Module JSDate.

Definition Date : Type := option Z.

Definition msPerDay : Z := 86400000.

(** Days from 1970-01-01 to the given day of the proleptic Gregorian
    calendar, [m] in 1..12. *)
Definition daysFromCivil (y m d : Z) : Z :=
  let y' := if m <=? 2 then y - 1 else y in
  let era := y' / 400 in
  let yoe := y' - era * 400 in
  let doy := (153 * (if 2 <? m then m - 3 else m + 9) + 2) / 5 + d - 1 in
  let doe := yoe * 365 + yoe / 4 - yoe / 100 + doy in
  era * 146097 + doe - 719468.

(** ECMAScript's MakeDay: a month index outside 0..11 carries into the year,
    a day outside the month carries into the neighbouring months. *)
Definition MakeDay (year month date : Z) : Z :=
  daysFromCivil (year + month / 12) (month mod 12 + 1) 1 + date - 1.

Definition truncate (q : Q) : Z := Z.quot (Qnum q) (Zpos (Qden q)).

(** [new Date(year, monthIndex, day)]: local midnight of that day. *)
Definition newDate (year monthIndex day : number) : Date :=
  match year, monthIndex, day with
  | Fin y, Fin m, Fin d =>
      let yi := truncate y in
      let yr := if (0 <=? yi) && (yi <=? 99) then 1900 + yi else yi in
      let t := MakeDay yr (truncate m) (truncate d) * msPerDay in
      if Z.abs t <=? 8640000000000000 then Some t else None
  | _, _, _ => None
  end.

(** [d.getTime()] *)
Definition getTime (d : Date) : number :=
  match d with
  | Some t => ofZ t
  | None => NaN
  end.

(** [differenceInDays(left, right)] of date-fns: the number of full days
    between the two dates, truncated towards zero; NaN when either date is
    invalid. *)
Definition differenceInDays (left right : Date) : number :=
  match left, right with
  | Some l, Some r => ofZ (Z.quot (l - r) msPerDay)
  | _, _ => NaN
  end.

End JSDate.
Export JSDate.

(** ** The data model ([types/trade.ts]) *)

Inductive Side : Type := BUY | SELL | DIVIDEND | FEE | DEPOSIT | CORP_ACTION.

Definition Side_eqb (a b : Side) : bool :=
  match a, b with
  | BUY, BUY | SELL, SELL | DIVIDEND, DIVIDEND | FEE, FEE
  | DEPOSIT, DEPOSIT | CORP_ACTION, CORP_ACTION => true
  | _, _ => false
  end.

Record Trade : Type := mkTrade {
  id : string;
  symbol : string;
  side : Side;
  quantity : number;
  price : number;
  date : string;
  fees : option number
}.

Definition setQuantity (t : Trade) (q : number) : Trade :=
  mkTrade (id t) (symbol t) (side t) q (price t) (date t) (fees t).

Definition setPrice (t : Trade) (p : number) : Trade :=
  mkTrade (id t) (symbol t) (side t) (quantity t) p (date t) (fees t).

(** A [Trade] object is named by a reference; the store gives the current
    contents of every object.  An array of trades is a list of references. *)
Definition ref : Type := nat.
Definition store : Type := ref -> Trade.

Definition update (h : store) (r : ref) (t : Trade) : store :=
  fun r' => if Nat.eqb r' r then t else h r'.

Record TradePair : Type := mkTradePair {
  buyTrade : Trade;          (* a fresh object *)
  sellTrade : ref;           (* the caller's SELL object itself *)
  realizedPnL : number;
  realizedPnLPercent : number;
  holdingPeriod : number
}.

Record Position : Type := mkPosition {
  p_symbol : string;
  p_quantity : number;
  avgBuyPrice : number;
  totalCost : number;
  currentPrice : option number;
  marketValue : option number;
  unrealizedPnL : option number;
  unrealizedPnLPercent : option number
}.

(** ** [parseCSVData]

    Papa Parse, run with [header: true], hands the rows over as objects whose
    fields are strings; a field is absent when the line is too short or the
    file has no such column. *)

Record Row : Type := mkRow {
  Instrument : option string;
  TransCode : option string;       (* row['Trans Code'] *)
  Quantity : option string;
  Amount : option string;
  ActivityDate : option string     (* row['Activity Date'] *)
}.

Inductive Result : Type :=
| Resolved (trades : list Trade)
| Rejected (message : string).

Module Normalizer.

Local Open Scope string_scope.

(** [!s] for a field that is a string or undefined. *)
Definition falsy (s : option string) : bool :=
  match s with
  | None => true
  | Some v => String.eqb v ""
  end.

(** [s || d] *)
Definition orElse (s : option string) (d : string) : string :=
  match s with
  | None => d
  | Some v => if String.eqb v "" then d else v
  end.

(** The [switch] on the upper-cased transaction code. *)
Definition sideOfTransCode (transCode : string) : option Side :=
  if String.eqb transCode "BUY" then Some BUY
  else if String.eqb transCode "SELL" then Some SELL
  else if String.eqb transCode "CDIV" then Some DIVIDEND
  else if String.eqb transCode "AFEE" then Some FEE
  else if String.eqb transCode "GOLD" then Some FEE
  else if String.eqb transCode "RTP" then Some DEPOSIT
  else if String.eqb transCode "SOFF" then Some CORP_ACTION
  else None.

Definition isQuote (c : ascii) : bool := Ascii.eqb c "034".

Definition isMoneyMark (c : ascii) : bool :=
  Ascii.eqb c "$" || Ascii.eqb c "," || Ascii.eqb c "(" || Ascii.eqb c ")".

(** [parseFloat(cleanQuantityStr)] *)
Definition quantityOf (row : Row) : number :=
  parseFloat (trim (removeAll isQuote (orElse (Quantity row) "0"))).

(** The parsed [amount], 0 when the field is blank. *)
Definition amountOf (row : Row) : number :=
  let amountStr := orElse (Amount row) "0" in
  if negb (String.eqb (trim amountStr) "")
  then parseFloat (removeAll isMoneyMark amountStr)
  else zero.

(** [calculatedPrice] on the branch where it is computed. *)
Definition priceOf (side : Side) (amount quantity : number) : number :=
  match side with
  | BUY => (Math_abs amount / quantity)%num
  | SELL => (amount / quantity)%num
  | _ => zero
  end.

Definition indexString (index : nat) : string :=
  NilEmpty.string_of_uint (Nat.to_uint index).

(** A field that has been found truthy. *)
Definition valueOf (s : option string) : string := orElse s "".

(** The body of [results.data.forEach]: the trade pushed for the row, or
    [None] when the callback returns early. *)
Definition processRow (index : nat) (row : Row) : option Trade :=
  let instrument := valueOf (Instrument row) in
  if falsy (Instrument row) || falsy (TransCode row)
     || String.eqb (trim instrument) ""
  then None
  else if String.eqb (trim instrument) "" then None
  else
    match sideOfTransCode (toUpperCase (valueOf (TransCode row))) with
    | None => None
    | Some side =>
        if negb (Side_eqb side BUY) && negb (Side_eqb side SELL) then None
        else
          let quantity := quantityOf row in
          if isNaN quantity || leb quantity zero then None
          else
            let amount := amountOf row in
            if neqb amount zero && gtb quantity zero then
              let calculatedPrice := priceOf side amount quantity in
              if isNaN calculatedPrice || leb calculatedPrice zero then None
              else if falsy (ActivityDate row)
                      || String.eqb (trim (valueOf (ActivityDate row))) ""
              then None
              else
                Some (mkTrade (instrument ++ "-" ++ indexString index)
                              (trim instrument) side
                              (Math_abs quantity) calculatedPrice
                              (valueOf (ActivityDate row))
                              (Some zero))
            else None
    end.

Fixpoint processRows (index : nat) (data : list Row) : list Trade :=
  match data with
  | [] => []
  | row :: rest =>
      match processRow index row with
      | Some trade => trade :: processRows (S index) rest
      | None => processRows (S index) rest
      end
  end.

(** The [complete] callback of [parseCSVData], on [results.data]. *)
Definition parseCSVData (data : list Row) : Result :=
  match data with
  | [] => Rejected "No data found in CSV file"
  | _ =>
      match processRows 0 data with
      | [] => Rejected "No valid trades found in CSV file. Please check the format."
      | trades => Resolved trades
      end
  end.

End Normalizer.
Export Normalizer.

(** ** [Array.prototype.sort]

    The sort is stable; a comparator result that is NaN counts as 0.  For a
    consistent comparator the result is the one stable sorted permutation,
    whatever algorithm the engine uses; it is computed here by insertion. *)

Section Sort.
Context {A : Type} (compareFn : A -> A -> number).

Fixpoint insertSorted (x : A) (l : list A) : list A :=
  match l with
  | [] => [x]
  | y :: l' =>
      if gtb (compareFn x y) zero then y :: insertSorted x l' else x :: l
  end.

Definition sort (l : list A) : list A := fold_right insertSorted [] l.
End Sort.

(** ** [calculateFIFOPairs] *)

Section Portfolio.

(** [a.localeCompare(b)], which depends on the host's locale. *)
Variable localeCompare : string -> string -> Z.
(** [parseISO] of date-fns. *)
Variable parseISO : string -> Date.

(** [parseDate] *)
Definition parseDate (dateString : string) : Date :=
  if includes "/" dateString then
    let parts := JSString.split "/" dateString in
    let part (i : nat) : number :=
      match nth_error parts i with
      | Some s => parseInt s
      | None => NaN              (* parseInt(undefined) *)
      end in
    newDate (part 2%nat) (part 0%nat - ofZ 1)%num (part 1%nat)
  else parseISO dateString.

(** The comparator of both sorts: symbol, then date, then BUY before SELL. *)
Definition compareTrades (a b : Trade) : number :=
  if negb (String.eqb (symbol a) (symbol b)) then
    ofZ (localeCompare (symbol a) (symbol b))
  else
    let dateA := getTime (parseDate (date a)) in
    let dateB := getTime (parseDate (date b)) in
    if neqb dateA dateB then (dateA - dateB)%num
    else if Side_eqb (side a) BUY && Side_eqb (side b) SELL then ofZ (-1)
    else if Side_eqb (side a) SELL && Side_eqb (side b) BUY then ofZ 1
    else zero.

(** The inner [for] loop: scan the BUY lots from the current one on, while
    some quantity of the sell remains.  [sell] is the SELL object, [buys] the
    lots not yet visited. *)
Fixpoint matchLots (h : store) (sell : ref) (buys : list ref)
  (remainingQuantity : number) (matchedBuys : list (ref * number))
  : store * number * list (ref * number) :=
  match buys with
  | [] => (h, remainingQuantity, matchedBuys)
  | b :: rest =>
      if gtb remainingQuantity zero then
        let buyTrade := h b in
        if String.eqb (symbol buyTrade) (symbol (h sell))
           && gtb (quantity buyTrade) zero
        then
          let matchQuantity := Math_min remainingQuantity (quantity buyTrade) in
          matchLots
            (update h b (setQuantity buyTrade (quantity buyTrade - matchQuantity)%num))
            sell rest
            (remainingQuantity - matchQuantity)%num
            (matchedBuys ++ [(b, matchQuantity)])
        else matchLots h sell rest remainingQuantity matchedBuys
      else (h, remainingQuantity, matchedBuys)
  end.

Definition totalBuyValue (h : store) (matchedBuys : list (ref * number)) : number :=
  fold_left (fun sum m => (sum + price (h (fst m)) * snd m)%num) matchedBuys zero.

Definition totalBuyQuantity (matchedBuys : list (ref * number)) : number :=
  fold_left (fun sum m => (sum + snd m)%num) matchedBuys zero.

(** The pair that is pushed for a complete match whose first contribution
    is [first]. *)
Definition makePair (h : store) (sell : ref) (first : ref)
  (matchedBuys : list (ref * number)) : TradePair :=
  let sellTrade := h sell in
  let avgBuyPrice := (totalBuyValue h matchedBuys / totalBuyQuantity matchedBuys)%num in
  let realizedPnL := ((price sellTrade - avgBuyPrice) * quantity sellTrade)%num in
  let realizedPnLPercent :=
    if gtb avgBuyPrice zero
    then (realizedPnL / (avgBuyPrice * quantity sellTrade) * ofZ 100)%num
    else zero in
  let holdingPeriod :=
    differenceInDays (parseDate (date sellTrade)) (parseDate (date (h first))) in
  mkTradePair
    (setPrice (setQuantity (h first) (quantity sellTrade)) avgBuyPrice)
    sell realizedPnL realizedPnLPercent holdingPeriod.

(** One round of [sellTrades.forEach]: the store it leaves and the pairs it
    pushes (one or none). *)
Definition matchSell (h : store) (buys : list ref) (sell : ref)
  : store * list TradePair :=
  let '(h', remainingQuantity, matchedBuys) :=
    matchLots h sell buys (quantity (h sell)) [] in
  match matchedBuys with
  | (first, _) :: _ =>
      if eqb remainingQuantity zero
      then (h', [makePair h' sell first matchedBuys])
      else (h', [])
  | [] => (h', [])
  end.

Fixpoint matchSells (h : store) (buys sells : list ref)
  : store * list TradePair :=
  match sells with
  | [] => (h, [])
  | s :: rest =>
      let '(h1, ps) := matchSell h buys s in
      let '(h2, pairs) := matchSells h1 buys rest in
      (h2, ps ++ pairs)
  end.

Definition isBuy (h : store) (r : ref) : bool := Side_eqb (side (h r)) BUY.

Definition sortedTrades (h : store) (trades : list ref) : list ref :=
  sort (fun a b => compareTrades (h a) (h b)) trades.

Definition buyTrades (h : store) (trades : list ref) : list ref :=
  filter (isBuy h) (sortedTrades h trades).

Definition sellTrades (h : store) (trades : list ref) : list ref :=
  filter (fun r => negb (isBuy h r)) (sortedTrades h trades).

(** [calculateFIFOPairs(trades)], run in store [h]: the store it leaves and
    the pairs it returns.  The caller's array [trades] itself is only read
    (spread into a new array before sorting). *)
Definition calculateFIFOPairs (h : store) (trades : list ref)
  : store * list TradePair :=
  matchSells h (buyTrades h trades) (sellTrades h trades).

(** ** [calculatePositions] *)

(** The [Map<string, Position>], in insertion order. *)
Definition PositionMap : Type := list (string * Position).

Fixpoint mapGet (m : PositionMap) (key : string) : option Position :=
  match m with
  | [] => None
  | (k, v) :: rest => if String.eqb k key then Some v else mapGet rest key
  end.

Fixpoint mapSet (m : PositionMap) (key : string) (value : Position) : PositionMap :=
  match m with
  | [] => [(key, value)]
  | (k, v) :: rest =>
      if String.eqb k key then (k, value) :: rest
      else (k, v) :: mapSet rest key value
  end.

Definition mapValues (m : PositionMap) : list Position := map snd m.

Definition newPosition (symbol : string) : Position :=
  mkPosition symbol zero zero zero (Some zero) (Some zero) (Some zero) (Some zero).

Definition setAvgBuyPrice (p : Position) (v : number) : Position :=
  mkPosition (p_symbol p) (p_quantity p) v (totalCost p)
    (currentPrice p) (marketValue p) (unrealizedPnL p) (unrealizedPnLPercent p).

Definition setTotalCost (p : Position) (v : number) : Position :=
  mkPosition (p_symbol p) (p_quantity p) (avgBuyPrice p) v
    (currentPrice p) (marketValue p) (unrealizedPnL p) (unrealizedPnLPercent p).

Definition setPQuantity (p : Position) (v : number) : Position :=
  mkPosition (p_symbol p) v (avgBuyPrice p) (totalCost p)
    (currentPrice p) (marketValue p) (unrealizedPnL p) (unrealizedPnLPercent p).

(** The successive contents of the position object while one trade is
    processed: one entry per assignment, none when nothing is assigned. *)
Definition assignments (position : Position) (trade : Trade) : list Position :=
  match side trade with
  | BUY =>
      let newTotalCost := (totalCost position + price trade * quantity trade)%num in
      let newQuantity := (p_quantity position + quantity trade)%num in
      let p1 := setAvgBuyPrice position
                  (if gtb newQuantity zero then (newTotalCost / newQuantity)%num else zero) in
      let p2 := setTotalCost p1 newTotalCost in
      let p3 := setPQuantity p2 newQuantity in
      [p1; p2; p3]
  | SELL =>
      let sellQuantity := Math_min (quantity trade) (p_quantity position) in
      if gtb sellQuantity zero then
        let soldCost := (avgBuyPrice position * sellQuantity)%num in
        let p1 := setPQuantity position (p_quantity position - sellQuantity)%num in
        let p2 := setTotalCost p1 (totalCost p1 - soldCost)%num in
        if gtb (p_quantity p2) zero then
          [p1; p2; setAvgBuyPrice p2 (totalCost p2 / p_quantity p2)%num]
        else
          let p3 := setAvgBuyPrice p2 zero in
          [p1; p2; p3; setTotalCost p3 zero]
      else []
  | _ => []
  end.

(** The position once the trade has been processed. *)
Definition applyTrade (position : Position) (trade : Trade) : Position :=
  last (assignments position trade) position.

(** One round of [sortedTrades.forEach]. *)
Definition processTrade (positions : PositionMap) (trade : Trade) : PositionMap :=
  let positions' :=
    match mapGet positions (symbol trade) with
    | Some _ => positions
    | None => mapSet positions (symbol trade) (newPosition (symbol trade))
    end in
  match mapGet positions' (symbol trade) with
  | Some position => mapSet positions' (symbol trade) (applyTrade position trade)
  | None => positions'           (* not reached: the key has just been set *)
  end.

Definition accumulate (trades : list Trade) : PositionMap :=
  fold_left processTrade (sort compareTrades trades) [].

(** [calculatePositions(trades)]; the trades are only read. *)
Definition calculatePositions (trades : list Trade) : list Position :=
  filter (fun pos => gtb (p_quantity pos) zero) (mapValues (accumulate trades)).

(** ** [handleDataLoaded], up to the two calculations

    [parsedTrades.map(trade => ({ ...trade }))] allocates one new object per
    trade; [next] is the first unused reference. *)
Fixpoint copyTrades (h : store) (next : ref) (trades : list ref)
  : store * ref * list ref :=
  match trades with
  | [] => (h, next, [])
  | r :: rest =>
      let '(h', next', copies) := copyTrades (update h next (h r)) (S next) rest in
      (h', next', next :: copies)
  end.

Definition handleDataLoaded (h : store) (next : ref) (parsedTrades : list ref)
  : store * list TradePair * list Position :=
  let '(h1, next1, tradesForFIFO) := copyTrades h next parsedTrades in
  let '(h2, _, tradesForPositions) := copyTrades h1 next1 parsedTrades in
  let '(h3, calculatedTradePairs) := calculateFIFOPairs h2 tradesForFIFO in
  let calculatedPositions := calculatePositions (map h3 tradesForPositions) in
  (h3, calculatedTradePairs, calculatedPositions).

End Portfolio.

(** ** The scan of [calculateFIFOPairs] in binary64 arithmetic

    JavaScript numbers are IEEE 754 binary64 values, which are the primitive
    floats of the kernel.  [Number] above holds finite values exactly; where
    the rounding of the code's own subtractions decides what the loop does,
    the loop is run here on the binary64 values themselves. *)

Module Double.

(** [a > b] *)
Definition gtb (a b : float) : bool := PrimFloat.ltb b a.

(** [Math.min(a, b)]: NaN if either is NaN, and -0 before +0. *)
Definition Math_min (a b : float) : float :=
  if PrimFloat.is_nan a || PrimFloat.is_nan b then PrimFloat.nan
  else if PrimFloat.ltb b a then b
  else if PrimFloat.ltb a b then a
  else if PrimFloat.get_sign a then a else b.

(** The fields of a trade object that the scan reads. *)
Record Trade : Type := mkTrade {
  symbol : string;
  side : Side;
  quantity : float
}.

Definition setQuantity (t : Trade) (q : float) : Trade :=
  mkTrade (symbol t) (side t) q.

Definition store : Type := ref -> Trade.

Definition update (h : store) (r : ref) (t : Trade) : store :=
  fun r' => if Nat.eqb r' r then t else h r'.

Definition storeOf (records : list Trade) : store :=
  fun r => nth r records (mkTrade "" FEE PrimFloat.nan).

(** The inner [for] loop, as [matchLots] above. *)
Fixpoint matchLots (h : store) (sell : ref) (buys : list ref)
  (remainingQuantity : float) (matchedBuys : list (ref * float))
  : store * float * list (ref * float) :=
  match buys with
  | [] => (h, remainingQuantity, matchedBuys)
  | b :: rest =>
      if gtb remainingQuantity 0%float then
        let buyTrade := h b in
        if String.eqb (symbol buyTrade) (symbol (h sell))
           && gtb (quantity buyTrade) 0%float
        then
          let matchQuantity := Math_min remainingQuantity (quantity buyTrade) in
          matchLots
            (update h b (setQuantity buyTrade
                           (PrimFloat.sub (quantity buyTrade) matchQuantity)))
            sell rest
            (PrimFloat.sub remainingQuantity matchQuantity)
            (matchedBuys ++ [(b, matchQuantity)])
        else matchLots h sell rest remainingQuantity matchedBuys
      else (h, remainingQuantity, matchedBuys)
  end.

(** [remainingQuantity === 0 && matchedBuys.length > 0] after the scan for
    [sell]: whether a pair is pushed. *)
Definition pushesPair (h : store) (buys : list ref) (sell : ref) : bool :=
  let '(_, remainingQuantity, matchedBuys) :=
    matchLots h sell buys (quantity (h sell)) [] in
  PrimFloat.eqb remainingQuantity 0%float
  && negb (Nat.eqb (List.length matchedBuys) 0).

(** The rational that a finite binary64 value stands for. *)
Definition exact (x : float) : option Q :=
  match Prim2SF x with
  | S754_zero _ => Some 0%Q
  | S754_finite negative m e =>
      Some (inject_Z (if negative then Z.neg m else Z.pos m) * 2 ^ e)%Q
  | _ => None
  end.

(** The total quantity of the lots, as a rational. *)
Fixpoint exactTotal (h : store) (buys : list ref) : option Q :=
  match buys with
  | [] => Some 0%Q
  | b :: rest =>
      match exact (quantity (h b)), exactTotal h rest with
      | Some x, Some y => Some (x + y)%Q
      | _, _ => None
      end
  end.

End Double.

(** ** [calculatePortfolioSummary] *)

(** Whether a number counts as true in a condition: neither NaN nor 0. *)
Definition truthy (x : number) : bool := negb (isNaN x || eqb x zero).

(** [x || 0], for an optional field. *)
Definition orZero (x : option number) : number :=
  match x with
  | Some v => if truthy v then v else zero
  | None => zero
  end.

Module Summary.

Record PortfolioSummary : Type := mkPortfolioSummary {
  totalCost : number;
  totalMarketValue : number;
  totalUnrealizedPnL : number;
  totalUnrealizedPnLPercent : number;
  totalRealizedPnL : number;
  totalRealizedPnLPercent : number;
  totalPnL : number;
  totalPnLPercent : number;
  positionCount : nat;
  tradeCount : nat
}.

End Summary.

(** [totalCost > 0 ? (x / totalCost) * 100 : 0] *)
Definition percentOf (x totalCost : number) : number :=
  if gtb totalCost zero then (x / totalCost * ofZ 100)%num else zero.

Definition calculatePortfolioSummary (positions : list Position)
  (tradePairs : list TradePair) (allTrades : list ref) : Summary.PortfolioSummary :=
  let totalCost := fold_left (fun sum pos => (sum + totalCost pos)%num) positions zero in
  let totalMarketValue :=
    fold_left (fun sum pos => (sum + orZero (marketValue pos))%num) positions zero in
  let totalUnrealizedPnL :=
    fold_left (fun sum pos => (sum + orZero (unrealizedPnL pos))%num) positions zero in
  let totalRealizedPnL :=
    fold_left (fun sum pair => (sum + realizedPnL pair)%num) tradePairs zero in
  let totalPnL := (totalRealizedPnL + totalUnrealizedPnL)%num in
  Summary.mkPortfolioSummary
    totalCost totalMarketValue
    totalUnrealizedPnL (percentOf totalUnrealizedPnL totalCost)
    totalRealizedPnL (percentOf totalRealizedPnL totalCost)
    totalPnL (percentOf totalPnL totalCost)
    (List.length positions) (List.length allTrades).

(** ** [updatePositionsWithMarketData]

    The callback of [positions.map], given what the two price look-ups
    resolve to: [live] for [getCurrentPrice], and [mock] for [getMockPrice],
    which is asked only when the first gives nothing usable ([null], 0 or
    NaN). *)
Definition usable (price : option number) : bool :=
  match price with
  | Some v => truthy v
  | None => false
  end.

Definition updatePosition (live mock : option number) (position : Position) : Position :=
  let currentPrice := if usable live then live else mock in
  match currentPrice with
  | Some price =>
      if truthy price then
        let marketValue := (p_quantity position * price)%num in
        let unrealizedPnL := (marketValue - totalCost position)%num in
        let unrealizedPnLPercent := (unrealizedPnL / totalCost position * ofZ 100)%num in
        mkPosition (p_symbol position) (p_quantity position) (avgBuyPrice position)
                   (totalCost position)
                   (Some price) (Some marketValue) (Some unrealizedPnL)
                   (Some unrealizedPnLPercent)
      else
        mkPosition (p_symbol position) (p_quantity position) (avgBuyPrice position)
                   (totalCost position)
                   (Some zero) (Some zero) (Some zero) (Some zero)
  | None =>
      mkPosition (p_symbol position) (p_quantity position) (avgBuyPrice position)
                 (totalCost position)
                 (Some zero) (Some zero) (Some zero) (Some zero)
  end.

(** The look-ups are taken per symbol. *)
Definition updatePositionsWithMarketData
  (getCurrentPrice getMockPrice : string -> option number)
  (positions : list Position) : list Position :=
  map (fun position =>
         updatePosition (getCurrentPrice (p_symbol position))
                        (getMockPrice (p_symbol position)) position)
      positions.

(** ** The analysis of [TradeAnalytics]

    The [analysis] object that the component computes from the trade pairs,
    and the conditions under which it pushes its insights. *)

(** [Math.max(a, b)] *)
Definition Math_max (a b : number) : number :=
  match a, b with
  | NaN, _ | _, NaN => NaN
  | _, _ => if ltb a b then b else a
  end.

(** [Math.max(...xs)] and [Math.min(...xs)] *)
Definition Math_max_of (xs : list number) : number := fold_left Math_max xs NInf.
Definition Math_min_of (xs : list number) : number := fold_left Math_min xs PInf.

(** [xs.length] *)
Definition lengthOf {A : Type} (xs : list A) : number :=
  ofZ (Z.of_nat (List.length xs)).

Definition isWin (p : TradePair) : bool := gtb (realizedPnL p) zero.
Definition isLoss (p : TradePair) : bool := ltb (realizedPnL p) zero.

Definition sumPnL (pairs : list TradePair) : number :=
  fold_left (fun sum p => (sum + realizedPnL p)%num) pairs zero.

Record Analysis : Type := mkAnalysis {
  totalTrades : number;
  winningTrades : number;
  losingTrades : number;
  winRate : number;
  avgHoldingPeriod : number;
  totalVolume : number;
  biggestWin : number;
  biggestLoss : number;
  avgWin : number;
  avgLoss : number
}.

Definition analyse (tradePairs : list TradePair) : Analysis :=
  let some := gtb (lengthOf tradePairs) zero in
  let wins := filter isWin tradePairs in
  let losses := filter isLoss tradePairs in
  mkAnalysis
    (lengthOf tradePairs)
    (lengthOf wins)
    (lengthOf losses)
    (if some then (lengthOf wins / lengthOf tradePairs * ofZ 100)%num else zero)
    (if some
     then (fold_left (fun sum pair => (sum + holdingPeriod pair)%num) tradePairs zero
           / lengthOf tradePairs)%num
     else zero)
    (fold_left (fun sum pair =>
                  (sum + quantity (buyTrade pair) * price (buyTrade pair))%num)
               tradePairs zero)
    (if some then Math_max_of (map realizedPnL tradePairs) else zero)
    (if some then Math_min_of (map realizedPnL tradePairs) else zero)
    (if gtb (lengthOf wins) zero then (sumPnL wins / lengthOf wins)%num else zero)
    (if gtb (lengthOf losses) zero then (sumPnL losses / lengthOf losses)%num else zero).

(** The conditions of the five insights. *)
Definition lowWinRate (a : Analysis) : bool := ltb (winRate a) (ofZ 50).
Definition dayTrading (a : Analysis) : bool := ltb (avgHoldingPeriod a) (ofZ 1).
Definition riskManagementIssue (a : Analysis) : bool :=
  gtb (avgLoss a) (Math_abs (avgWin a)).
Definition highFrequency (a : Analysis) : bool := gtb (totalTrades a) (ofZ 50).
Definition largeLosses (a : Analysis) : bool := ltb (biggestLoss a) (ofZ (-100)).

(** ** Definitions used to state the properties *)

(** Two contents of a trade object that differ at most in [quantity]. *)
Definition sameButQuantity (t t' : Trade) : Prop :=
  t' = setQuantity t (quantity t').

(** A store holding the given records at references 0, 1, 2, ... *)
Definition storeOf (records : list Trade) : store :=
  fun r => nth r records (mkTrade "" "" FEE NaN NaN "" None).

(** A host for closed examples: code-unit order for [localeCompare], and no
    ISO dates. *)
Definition codeUnitCompare (a b : string) : Z :=
  match String.compare a b with
  | Lt => -1
  | Eq => 0
  | Gt => 1
  end.

Definition noISO (s : string) : Date := None.

Definition trade (symbol : string) (side : Side) (quantity price : Z)
  (date : string) : Trade :=
  mkTrade (symbol ++ "-0") symbol side (ofZ quantity) (ofZ price) date (Some zero).

(** BUY 100 @ 150 on day 1, SELL 50 @ 160 on day 2. *)
Definition singleLot : list Trade :=
  [ trade "AAPL" BUY 100 150 "7/24/2025";
    trade "AAPL" SELL 50 160 "7/25/2025" ].

(** SELL 50 @ 160 on day 1, BUY 100 @ 150 on day 2: the only BUY is dated
    after the SELL. *)
Definition sellBeforeBuy : list Trade :=
  [ trade "AAPL" SELL 50 160 "7/24/2025";
    trade "AAPL" BUY 100 150 "7/25/2025" ].

(** The sums of the specification, over the contributions [(lot, qty)] of
    one sell. *)
Definition sumOver {A : Type} (f : A -> number) (l : list A) : number :=
  fold_left (fun sum x => (sum + f x)%num) l zero.

Definition weightedAvgPrice (h : store) (contributions : list (ref * number)) : number :=
  (sumOver (fun c => price (h (fst c)) * snd c)%num contributions
   / sumOver snd contributions)%num.

(** The store left by the scan for one sell. *)
Definition scanStore (h : store) (buys : list ref) (sell : ref) : store :=
  fst (fst (matchLots h sell buys (quantity (h sell)) [])).

(** *** The matcher of the specification (section 4.3)

    Written from the words of the specification, over a table of lots that
    is separate from the records, to be compared with [calculateFIFOPairs]. *)

(** A lot: the BUY record it is a view of, and the quantity that remains. *)
Record Lot : Type := mkLot { sourceRecord : ref; remainingQuantity : number }.

(** Step 1: one lot per BUY record, [remainingQuantity = quantity], in the
    order of the sort. *)
Definition buyLots (h : store) (buys : list ref) : list Lot :=
  map (fun b => mkLot b (quantity (h b))) buys.

(** Step 2a: scan the lots in order; from each lot of the symbol with
    [remainingQuantity > 0] consume [min(remainingSellQty, remainingQuantity)],
    decrement both and record the contribution [(lot, consumedQty)]; until
    [remainingSellQty == 0] or the lots are exhausted.  The result is the
    table of lots, what remains of the sell, and the contributions. *)
Fixpoint scanLots (h : store) (sym : string) (remainingSellQty : number)
  (lots : list Lot) : list Lot * number * list (ref * number) :=
  match lots with
  | [] => ([], remainingSellQty, [])
  | lot :: rest =>
      if eqb remainingSellQty zero then (lots, remainingSellQty, [])
      else if String.eqb (symbol (h (sourceRecord lot))) sym
              && gtb (remainingQuantity lot) zero
      then
        let consumedQty := Math_min remainingSellQty (remainingQuantity lot) in
        let '(rest', remaining', contributions) :=
          scanLots h sym (remainingSellQty - consumedQty)%num rest in
        (mkLot (sourceRecord lot) (remainingQuantity lot - consumedQty)%num :: rest',
         remaining',
         (sourceRecord lot, consumedQty) :: contributions)
      else
        let '(rest', remaining', contributions) :=
          scanLots h sym remainingSellQty rest in
        (lot :: rest', remaining', contributions)
  end.

(** The outcome of step 2a for one sell record. *)
Record Outcome : Type := mkOutcome {
  o_sell : ref;
  o_remaining : number;
  o_contributions : list (ref * number)
}.

(** Step 2: the outcome for each sell record, in order, each scan starting
    from the table left by the scan before it. *)
Fixpoint scanAll (h : store) (lots : list Lot) (sellRecords : list ref)
  : list Outcome :=
  match sellRecords with
  | [] => []
  | s :: rest =>
      let '(lots', remaining, consumed) :=
        scanLots h (symbol (h s)) (quantity (h s)) lots in
      mkOutcome s remaining consumed :: scanAll h lots' rest
  end.

(** Steps 2b and 2c: the match is complete when [remainingSellQty == 0] and
    at least one contribution was made; any other sell is dropped. *)
Definition complete (o : Outcome) : bool :=
  eqb (o_remaining o) zero && negb (Nat.eqb (List.length (o_contributions o)) 0).

(** The sells with a complete match, each with its contributions. *)
Definition matchFIFO (h : store) (lots : list Lot) (sellRecords : list ref)
  : list (ref * list (ref * number)) :=
  map (fun o => (o_sell o, o_contributions o))
      (filter complete (scanAll h lots sellRecords)).

(** Step 2b: the fields of the pair of a sell record and its contributions. *)
Definition pairFields (parseISO : string -> Date) (h : store) (sellRecord : ref)
  (contributions : list (ref * number)) (p : TradePair) : Prop :=
  match contributions with
  | [] => False
  | (first, _) :: _ =>
      let avg := weightedAvgPrice h contributions in
      sellTrade p = sellRecord /\
      buyTrade p = setPrice (setQuantity (h first) (quantity (h sellRecord))) avg /\
      realizedPnL p = ((price (h sellRecord) - avg) * quantity (h sellRecord))%num /\
      realizedPnLPercent p =
        (if gtb avg zero
         then (realizedPnL p / (avg * quantity (h sellRecord)) * ofZ 100)%num
         else zero) /\
      holdingPeriod p =
        differenceInDays (parseDate parseISO (date (h sellRecord)))
                         (parseDate parseISO (date (h first)))
  end.

(** A finite quantity that is not negative. *)
Definition nonNegativeFinite (a : number) : Prop :=
  exists q, a = Fin q /\ (0 <= q)%Q.

(** The quantity of every record that is not a BUY is finite and not
    negative (in the data model every quantity is a positive real). *)
Definition sellQuantities (h : store) (trades : list ref) : Prop :=
  Forall (fun r => side (h r) <> BUY -> nonNegativeFinite (quantity (h r))) trades.

(** Lots of 837.36 and 2636.91 shares, the older one first, and a SELL of
    3474.27; lots of 1 and 2^53 shares, the older one first, and a SELL of
    2^53 + 2. *)
#[warnings="-inexact-float"] Definition roundedLots : list Double.Trade :=
  [ Double.mkTrade "KO" BUY 837.36%float;
    Double.mkTrade "KO" BUY 2636.91%float;
    Double.mkTrade "KO" SELL 3474.27%float ].

Definition integerLots : list Double.Trade :=
  [ Double.mkTrade "KO" BUY 1%float;
    Double.mkTrade "KO" BUY 9007199254740992%float;
    Double.mkTrade "KO" SELL 9007199254740994%float ].

(** The quantity of the SELL at reference 2 exceeds the total of the lots at
    references 0 and 1, as rationals. *)
Definition exceeds (records : list Double.Trade) : Prop :=
  match Double.exactTotal (Double.storeOf records) [0; 1]%nat,
        Double.exact (Double.quantity (Double.storeOf records 2%nat)) with
  | Some available, Some asked => (available < asked)%Q
  | _, _ => False
  end.

(** BUY 100, then SELL 150 (more than was bought), then SELL 50. *)
Definition oversold : list Trade :=
  [ trade "AAPL" BUY 100 150 "7/24/2025";
    trade "AAPL" SELL 150 160 "7/25/2025";
    trade "AAPL" SELL 50 170 "7/26/2025" ].

(** Rows of the price-derivation examples, and a row whose amount is
    infinite. *)
Definition row (instrument code quantity amount day : string) : Row :=
  mkRow (Some instrument) (Some code) (Some quantity) (Some amount) (Some day).

Definition buyRow : Row := row "KO" "Buy" "100" "-1500.00" "7/24/2025".
Definition sellRow : Row := row "KO" "Sell" "100" "1600.00" "7/25/2025".
Definition infiniteAmountRow : Row := row "KO" "Sell" "100" "Infinity" "7/25/2025".
Definition dividendRow : Row := row "KO" "CDIV" "" "12.00" "7/26/2025".
Definition zeroAmountRow : Row := row "KO" "Buy" "100" "$0.00" "7/26/2025".

(** The side that the transaction code of a row maps to. *)
Definition sideOf (r : Row) : option Side :=
  sideOfTransCode (toUpperCase (valueOf (TransCode r))).

(** The conditions under which a row fails validation: a missing or blank
    instrument, a missing transaction code, a code that is not recognized or
    is not a trade, a quantity that does not parse or is not positive, an
    amount of zero (no price can be derived), a derived price that is NaN or
    not positive, a missing or blank activity date. *)
Definition rowInvalid (r : Row) : Prop :=
  falsy (Instrument r) = true \/
  falsy (TransCode r) = true \/
  trim (valueOf (Instrument r)) = ""%string \/
  match sideOf r with
  | None => True
  | Some side =>
      (side <> BUY /\ side <> SELL) \/
      isNaN (quantityOf r) = true \/
      leb (quantityOf r) zero = true \/
      eqb (amountOf r) zero = true \/
      isNaN (priceOf side (amountOf r) (quantityOf r)) = true \/
      leb (priceOf side (amountOf r) (quantityOf r)) zero = true \/
      falsy (ActivityDate r) = true \/
      trim (valueOf (ActivityDate r)) = ""%string
  end.

(** The trades of the rows that pass, in the order of the rows, each with
    the index of its row. *)
Definition validTradesFrom (index : nat) (data : list Row) : list Trade :=
  flat_map (fun ir => match processRow (fst ir) (snd ir) with
                      | Some t => [t]
                      | None => []
                      end)
           (combine (seq index (List.length data)) data).

Definition validTrades (data : list Row) : list Trade := validTradesFrom 0 data.

(** The successive contents of the map of positions while one trade is
    processed: after the lazy creation of the position, and after each
    assignment to it. *)
Definition tradeStates (positions : PositionMap) (t : Trade) : list PositionMap :=
  let positions' :=
    match mapGet positions (symbol t) with
    | Some _ => positions
    | None => mapSet positions (symbol t) (newPosition (symbol t))
    end in
  match mapGet positions' (symbol t) with
  | Some position =>
      positions' :: map (mapSet positions' (symbol t)) (assignments position t)
  | None => [positions']
  end.

Fixpoint runStates (positions : PositionMap) (trades : list Trade) : list PositionMap :=
  match trades with
  | [] => []
  | t :: rest => tradeStates positions t ++ runStates (processTrade positions t) rest
  end.

(** Every content that the map of positions has during a run of
    [calculatePositions], the empty map it starts from included. *)
Definition observations (localeCompare : string -> string -> Z)
  (parseISO : string -> Date) (trades : list Trade) : list PositionMap :=
  [] :: runStates [] (sort (compareTrades localeCompare parseISO) trades).

(** The invariant of the data model on the records admitted into the core:
    a positive quantity and a positive price, both finite. *)
Definition admitted (t : Trade) : bool :=
  isFinite (quantity t) && gtb (quantity t) zero
  && isFinite (price t) && gtb (price t) zero.

(** [abs(totalCost - avgBuyPrice * quantity) < epsilon] *)
Definition costWithin (epsilon : number) (p : Position) : bool :=
  ltb (Math_abs (totalCost p - avgBuyPrice p * p_quantity p)%num) epsilon.

(** What every completed update establishes: the average price is the
    quotient [totalCost / quantity] when shares are held, and 0 otherwise. *)
Definition recomputed (p : Position) : Prop :=
  if gtb (p_quantity p) zero
  then avgBuyPrice p = (totalCost p / p_quantity p)%num
  else avgBuyPrice p = zero.

(** A BUY row whose amount is infinite. *)
Definition infiniteBuyRow : Row := row "KO" "Buy" "100" "Infinity" "7/24/2025".

(** BUY 100 @ 10, BUY 50 @ 20, then SELL 30. *)
Definition partialSell : list Trade :=
  [ trade "KO" BUY 100 10 "7/24/2025";
    trade "KO" BUY 50 20 "7/25/2025";
    trade "KO" SELL 30 30 "7/26/2025" ].

(** BUY 100 @ 10, BUY 50 @ 20, then SELL 200: more than is held. *)
Definition overSellPosition : list Trade :=
  [ trade "KO" BUY 100 10 "7/24/2025";
    trade "KO" BUY 50 20 "7/25/2025";
    trade "KO" SELL 200 30 "7/26/2025" ].

(** Every position of the map has the property [good]. *)
Definition allGood (good : Position -> Prop) (m : PositionMap) : Prop :=
  forall p, In p (mapValues m) -> good p.

(** The quantity of a position is not negative. *)
Definition nonNegative (p : Position) : Prop := ltb (p_quantity p) zero = false.

(** A map holding 150 shares bought for 2000 in all. *)
Definition heldPositions : PositionMap :=
  [ ("KO"%string,
     mkPosition "KO" (ofZ 150) (fin (40 # 3)) (ofZ 2000)
                (Some zero) (Some zero) (Some zero) (Some zero)) ].

(** From one store to a later one no finite quantity has grown, and none
    that was not negative has become negative. *)
Definition shrinks (h h' : store) : Prop :=
  forall r x,
    quantity (h r) = Fin x ->
    exists x', quantity (h' r) = Fin x' /\ (x' <= x)%Q /\ ((0 <= x)%Q -> (0 <= x')%Q).

(** BUY 100 AAPL, BUY 10 TSLA, SELL 50 AAPL. *)
Definition twoSymbols : list Trade :=
  [ trade "AAPL" BUY 100 150 "7/24/2025";
    trade "TSLA" BUY 10 250 "7/24/2025";
    trade "AAPL" SELL 50 160 "7/25/2025" ].

(** The part of a string after its last ["-"], the string itself when it
    has none. *)
Fixpoint afterLastDash (s : string) : string :=
  match s with
  | EmptyString => EmptyString
  | String c r =>
      if includes "-" r then afterLastDash r
      else if Ascii.eqb c "-" then r else s
  end.

(** The keys of the map are distinct, and every position sits under its
    own symbol. *)
Definition keyed (m : PositionMap) : Prop :=
  NoDup (map fst m) /\ forall k v, In (k, v) m -> p_symbol v = k.

(** The position of 150 shares bought for 2000 in all. *)
Definition heldPosition : Position :=
  mkPosition "KO" (ofZ 150) (fin (40 # 3)) (ofZ 2000)
             (Some zero) (Some zero) (Some zero) (Some zero).

(** A second position, of another symbol. *)
Definition otherPosition : Position :=
  mkPosition "PEP" (ofZ 10) (ofZ 170) (ofZ 1700)
             (Some zero) (Some zero) (Some zero) (Some zero).

(** The position returned for a symbol without a usable price. *)
Definition withoutPrice (position : Position) : Position :=
  mkPosition (p_symbol position) (p_quantity position) (avgBuyPrice position)
             (totalCost position) (Some zero) (Some zero) (Some zero) (Some zero).

(** The order that the comparator of the two sorts is meant to impose:
    by symbol; within a symbol by date; within a day a SELL not before a BUY. *)
Definition precedes (localeCompare : string -> string -> Z)
  (parseISO : string -> Date) (t u : Trade) : Prop :=
  if String.eqb (symbol t) (symbol u) then
    match parseDate parseISO (date t), parseDate parseISO (date u) with
    | Some a, Some b => a < b \/ (a = b /\ ~ (side t = SELL /\ side u = BUY))
    | _, _ => False
    end
  else localeCompare (symbol t) (symbol u) <= 0.

(** A BUY or SELL record with a valid date. *)
Definition sortable (parseISO : string -> Date) (t : Trade) : Prop :=
  (side t = BUY \/ side t = SELL) /\ parseDate parseISO (date t) <> None.

(** [localeCompare] orders the given symbols totally. *)
Definition consistentOn (localeCompare : string -> string -> Z)
  (symbols : list string) : Prop :=
  (forall x y, In x symbols -> In y symbols ->
               0 < localeCompare x y -> localeCompare y x <= 0) /\
  (forall x y, In x symbols -> In y symbols ->
               localeCompare x y <= 0 -> localeCompare y x <= 0 -> x = y) /\
  (forall x y z, In x symbols -> In y symbols -> In z symbols ->
                 localeCompare x y <= 0 -> localeCompare y z <= 0 ->
                 localeCompare x z <= 0).

(** Minus infinity, or a finite value that is not positive. *)
Definition notPositive (a : number) : Prop :=
  a = NInf \/ exists q, a = Fin q /\ (q <= 0)%Q.

(** SELL 50 on a day given without its year, after BUY 100. *)
Definition badDate : list Trade :=
  [ trade "AAPL" BUY 100 150 "7/24/2025";
    trade "AAPL" SELL 50 160 "7/25" ].

(** One winning and one losing pair. *)
Definition winAndLoss : list TradePair :=
  [ mkTradePair (trade "AAPL" BUY 50 150 "7/24/2025") 1%nat (ofZ 500) (ofZ 7) (ofZ 1);
    mkTradePair (trade "KO" BUY 10 60 "7/24/2025") 3%nat (ofZ (-20)) (ofZ (-3)) (ofZ 2) ].

(** BUY 100 and BUY 50 on two days, then SELL 120. *)
Definition twoLots : list Trade :=
  [ trade "TSLA" BUY 100 250 "7/24/2025";
    trade "TSLA" BUY 50 250 "7/25/2025";
    trade "TSLA" SELL 120 250 "7/26/2025" ].

(** * Properties *)

(** ** Numbers *)

Lemma Qltb_lt (a b : Q) : Qltb a b = true <-> (a < b)%Q.
Proof.
  unfold Qltb. rewrite Qlt_alt.
  destruct (a ?= b)%Q; split; congruence.
Qed.

Lemma Qltb_ge (a b : Q) : Qltb a b = false <-> (b <= a)%Q.
Proof.
  split; intro H.
  - apply Qnot_lt_le. intro L. apply Qltb_lt in L. congruence.
  - destruct (Qltb a b) eqn:E; [| reflexivity].
    apply Qltb_lt in E. exfalso. exact (Qlt_not_le _ _ E H).
Qed.

Lemma fin_eq (p q : Q) : (p == q)%Q -> fin p = fin q.
Proof. intro H. unfold fin. f_equal. apply Qred_complete. exact H. Qed.

(** A value that passes the test [a > 0]. *)
Lemma gtb_zero_inv (a : number) :
  gtb a zero = true -> a = PInf \/ exists q, a = Fin q /\ (0 < q)%Q.
Proof.
  destruct a; simpl; try discriminate; auto.
  intro H. right. exists q. split; [reflexivity | apply Qltb_lt; exact H].
Qed.

Lemma gtb_zero_Fin (q : Q) : gtb (Fin q) zero = true <-> (0 < q)%Q.
Proof. apply Qltb_lt. Qed.

Lemma gtb_zero_Fin_false (q : Q) : gtb (Fin q) zero = false <-> (q <= 0)%Q.
Proof. apply Qltb_ge. Qed.

(** ** The store *)

Lemma update_same (h : store) (r : ref) (t : Trade) : update h r t r = t.
Proof. unfold update. rewrite Nat.eqb_refl. reflexivity. Qed.

Lemma update_other (h : store) (r r' : ref) (t : Trade) :
  r' <> r -> update h r t r' = h r'.
Proof.
  intro N. unfold update. destruct (Nat.eqb_spec r' r); [contradiction | reflexivity].
Qed.

Lemma sameButQuantity_refl (t : Trade) : sameButQuantity t t.
Proof. destruct t; reflexivity. Qed.

Lemma sameButQuantity_set (t : Trade) (q : number) :
  sameButQuantity t (setQuantity t q).
Proof. reflexivity. Qed.

Lemma sameButQuantity_trans (t1 t2 t3 : Trade) :
  sameButQuantity t1 t2 -> sameButQuantity t2 t3 -> sameButQuantity t1 t3.
Proof.
  unfold sameButQuantity. intros H12 H23. rewrite H23, H12. reflexivity.
Qed.

Lemma sameButQuantity_fields (t t' : Trade) :
  sameButQuantity t t' ->
  id t' = id t /\ symbol t' = symbol t /\ side t' = side t /\
  price t' = price t /\ date t' = date t /\ fees t' = fees t.
Proof. unfold sameButQuantity. intro H. rewrite H. simpl. repeat split. Qed.

(** What a run of the matcher over the lots [buys] may change in the store:
    only the quantity of a lot of [buys] whose quantity was positive. *)
Definition frames (buys : list ref) (h h' : store) : Prop :=
  forall r,
    sameButQuantity (h r) (h' r) /\
    (~ In r buys -> h' r = h r) /\
    (gtb (quantity (h r)) zero = false -> h' r = h r).

Lemma frames_refl (buys : list ref) (h : store) : frames buys h h.
Proof. intro r. split; [apply sameButQuantity_refl | split; reflexivity]. Qed.

Lemma frames_trans (buys : list ref) (h1 h2 h3 : store) :
  frames buys h1 h2 -> frames buys h2 h3 -> frames buys h1 h3.
Proof.
  intros F12 F23 r.
  destruct (F12 r) as (S12 & O12 & Z12), (F23 r) as (S23 & O23 & Z23).
  split; [eapply sameButQuantity_trans; eassumption |].
  split.
  - intro N. rewrite (O23 N). exact (O12 N).
  - intro N. pose proof (Z12 N) as E.
    assert (N2 : gtb (quantity (h2 r)) zero = false) by (rewrite E; exact N).
    rewrite (Z23 N2). exact E.
Qed.

Lemma frames_incl (buys buys' : list ref) (h h' : store) :
  incl buys buys' -> frames buys h h' -> frames buys' h h'.
Proof.
  intros I F r. destruct (F r) as (S & O & Z).
  split; [exact S | split; [| exact Z]].
  intro N. apply O. intro B. apply N, I, B.
Qed.

Lemma matchLots_frames (sell : ref) (buys : list ref) :
  forall h remaining matched,
    frames buys h (fst (fst (matchLots h sell buys remaining matched))).
Proof.
  induction buys as [| b rest IH]; intros h remaining matched; cbn [matchLots].
  - apply frames_refl.
  - destruct (gtb remaining zero); [| apply frames_refl].
    destruct (String.eqb (symbol (h b)) (symbol (h sell))
              && gtb (quantity (h b)) zero) eqn:M.
    + apply andb_prop in M. destruct M as [_ Pos].
      eapply frames_trans;
        [| eapply frames_incl; [| apply IH]; intros x Hx; right; exact Hx].
      intro r. destruct (Nat.eq_dec r b) as [-> | N].
      * rewrite update_same. split; [apply sameButQuantity_set |].
        split; [intro C; exfalso; apply C; left; reflexivity |].
        intro C. rewrite Pos in C. discriminate.
      * rewrite (update_other _ _ _ _ N).
        split; [apply sameButQuantity_refl | split; reflexivity].
    + eapply frames_incl; [| apply IH]. intros x Hx; right; exact Hx.
Qed.

(** ** Sorting only permutes *)

Lemma insertSorted_Permutation {A : Type} (cmp : A -> A -> number) (x : A) (l : list A) :
  Permutation (insertSorted cmp x l) (x :: l).
Proof.
  induction l as [| y l IH]; cbn [insertSorted]; [apply Permutation_refl |].
  destruct (gtb (cmp x y) zero); [| apply Permutation_refl].
  eapply perm_trans; [apply perm_skip, IH | apply perm_swap].
Qed.

Lemma sort_Permutation {A : Type} (cmp : A -> A -> number) (l : list A) :
  Permutation (sort cmp l) l.
Proof.
  induction l as [| x l IH]; cbn [sort fold_right]; [apply perm_nil |].
  fold (sort cmp l).
  eapply perm_trans; [apply insertSorted_Permutation | apply perm_skip, IH].
Qed.

Lemma insertSorted_In {A : Type} (cmp : A -> A -> number) (x y : A) (l : list A) :
  In x (insertSorted cmp y l) <-> x = y \/ In x l.
Proof.
  induction l as [| z l IH]; cbn [insertSorted In].
  - intuition.
  - destruct (gtb (cmp y z) zero); cbn [In]; [rewrite IH |]; intuition.
Qed.

Lemma sort_In {A : Type} (cmp : A -> A -> number) (x : A) (l : list A) :
  In x (sort cmp l) <-> In x l.
Proof.
  induction l as [| y l IH]; cbn [sort fold_right In]; [reflexivity |].
  fold (sort cmp l). rewrite insertSorted_In, IH. intuition.
Qed.

Section FIFOFrame.

Variable localeCompare : string -> string -> Z.
Variable parseISO : string -> Date.

Lemma matchSell_frames (h : store) (buys : list ref) (sell : ref) :
  frames buys h (fst (matchSell parseISO h buys sell)).
Proof.
  unfold matchSell.
  pose proof (matchLots_frames sell buys h (quantity (h sell)) []) as F.
  destruct (matchLots h sell buys (quantity (h sell)) []) as [[h' rem] matched].
  simpl in F.
  destruct matched as [| [first q] rest]; [exact F |].
  destruct (eqb rem zero); exact F.
Qed.

Lemma matchSells_frames (buys sells : list ref) :
  forall h, frames buys h (fst (matchSells parseISO h buys sells)).
Proof.
  induction sells as [| s rest IH]; intro h; simpl.
  - apply frames_refl.
  - pose proof (matchSell_frames h buys s) as F1.
    destruct (matchSell parseISO h buys s) as [h1 ps]. simpl in F1.
    pose proof (IH h1) as F2.
    destruct (matchSells parseISO h1 buys rest) as [h2 pairs]. simpl in *.
    eapply frames_trans; eassumption.
Qed.

Lemma buyTrades_In (h : store) (trades : list ref) (r : ref) :
  In r (buyTrades localeCompare parseISO h trades) <->
  In r trades /\ side (h r) = BUY.
Proof.
  unfold buyTrades, sortedTrades. rewrite filter_In, sort_In.
  unfold isBuy. destruct (side (h r)); simpl; intuition discriminate.
Qed.

Lemma sellTrades_In (h : store) (trades : list ref) (r : ref) :
  In r (sellTrades localeCompare parseISO h trades) <->
  In r trades /\ side (h r) <> BUY.
Proof.
  unfold sellTrades, sortedTrades. rewrite filter_In, sort_In.
  unfold isBuy. destruct (side (h r)); simpl; intuition (discriminate || congruence).
Qed.

Lemma calculateFIFOPairs_frames (h : store) (trades : list ref) :
  frames (buyTrades localeCompare parseISO h trades) h
         (fst (calculateFIFOPairs localeCompare parseISO h trades)).
Proof. apply matchSells_frames. Qed.

(** Copying the records allocates above [next] and leaves the rest of the
    store alone. *)
Lemma copyTrades_spec (trades : list ref) :
  forall h next,
    let '(h', next', copies) := copyTrades h next trades in
    (next <= next')%nat /\
    (forall r, (r < next)%nat -> h' r = h r) /\
    Forall (fun c => (next <= c < next')%nat) copies.
Proof.
  induction trades as [| t rest IH]; intros h next; simpl.
  - repeat split; auto.
  - specialize (IH (update h next (h t)) (S next)).
    destruct (copyTrades (update h next (h t)) (S next) rest)
      as [[h' next'] copies].
    destruct IH as (L & U & C).
    split; [lia |]. split.
    + intros r Hr. rewrite U by lia. apply update_other. lia.
    + constructor; [lia |].
      eapply Forall_impl; [| exact C]. simpl. intros; lia.
Qed.

End FIFOFrame.

(** ** C1: what [calculateFIFOPairs] changes for its caller *)

(** C1 as stated does not hold: the array is copied, the records are not.
    For BUY 100 followed by SELL 50 the caller's BUY record, at reference 0
    of the caller's array, ends with quantity 50. *)
Lemma calculateFIFOPairs_changes_buy_quantity :
  let h := storeOf singleLot in
  let h' := fst (calculateFIFOPairs codeUnitCompare noISO h [0; 1]%nat) in
  In 0%nat [0; 1]%nat /\
  quantity (h 0%nat) = ofZ 100 /\
  quantity (h' 0%nat) = ofZ 50 /\
  h' 0%nat <> h 0%nat.
Proof.
  cbv zeta. split; [left; reflexivity |].
  split; [reflexivity |].
  split; [vm_compute; reflexivity |].
  intro E. apply (f_equal quantity) in E. vm_compute in E. discriminate E.
Qed.

Section Frame.

Variable localeCompare : string -> string -> Z.
Variable parseISO : string -> Date.

(** C1, amended: [calculateFIFOPairs] changes nothing but the [quantity]
    of BUY records of the caller's sequence: every other field of every
    record, every record that is not a BUY record of the sequence, and (the
    sort working on a copy of the array) the sequence itself stay as they
    were.  In [handleDataLoaded], which hands over copies of the records,
    every record that existed before the call is unchanged. *)
Theorem calculateFIFOPairs_frame (h : store) (trades : list ref) (r : ref) :
  let h' := fst (calculateFIFOPairs localeCompare parseISO h trades) in
  (id (h' r) = id (h r) /\ symbol (h' r) = symbol (h r) /\
   side (h' r) = side (h r) /\ price (h' r) = price (h r) /\
   date (h' r) = date (h r) /\ fees (h' r) = fees (h r)) /\
  (~ (In r trades /\ side (h r) = BUY) -> h' r = h r) /\
  (forall next, (r < next)%nat ->
     fst (fst (handleDataLoaded localeCompare parseISO h next trades)) r = h r).
Proof.
  cbv zeta. split; [| split].
  - apply sameButQuantity_fields.
    apply (calculateFIFOPairs_frames localeCompare parseISO h trades r).
  - intro N.
    destruct (calculateFIFOPairs_frames localeCompare parseISO h trades r)
      as (_ & O & _).
    apply O. rewrite buyTrades_In. exact N.
  - intros next Hr. unfold handleDataLoaded.
    pose proof (copyTrades_spec trades h next) as C1.
    destruct (copyTrades h next trades) as [[h1 next1] tradesForFIFO].
    destruct C1 as (L1 & U1 & A1).
    pose proof (copyTrades_spec trades h1 next1) as C2.
    destruct (copyTrades h1 next1 trades) as [[h2 next2] tradesForPositions].
    destruct C2 as (L2 & U2 & A2).
    pose proof (calculateFIFOPairs_frames localeCompare parseISO h2 tradesForFIFO r)
      as (_ & O & _).
    destruct (calculateFIFOPairs localeCompare parseISO h2 tradesForFIFO)
      as [h3 pairs].
    cbn [fst] in *.
    rewrite O.
    + rewrite U2, U1 by lia. reflexivity.
    + rewrite buyTrades_In. intros [I _].
      rewrite Forall_forall in A1. specialize (A1 r I). lia.
Qed.

End Frame.

(** The SELL record of the single-lot example is left as it was, by
    [calculateFIFOPairs] and by [handleDataLoaded]. *)
Lemma calculateFIFOPairs_frame_witness :
  fst (calculateFIFOPairs codeUnitCompare noISO (storeOf singleLot) [0; 1]%nat) 1%nat
  = storeOf singleLot 1%nat /\
  fst (fst (handleDataLoaded codeUnitCompare noISO (storeOf singleLot) 2%nat [0; 1]%nat)) 0%nat
  = storeOf singleLot 0%nat.
Proof.
  destruct (calculateFIFOPairs_frame codeUnitCompare noISO
              (storeOf singleLot) [0; 1]%nat 1%nat) as (_ & Outside & _).
  destruct (calculateFIFOPairs_frame codeUnitCompare noISO
              (storeOf singleLot) [0; 1]%nat 0%nat) as (_ & _ & Copies).
  split.
  - refine (Outside _). intros [_ B]. discriminate B.
  - refine (Copies 2%nat _). repeat constructor.
Defined.

(** ** C2: a SELL is matched against later BUY lots too *)

(** C2 (code at the failing input): for a SELL on 7/24/2025 and a BUY of the
    same symbol on 7/25/2025 the matcher emits a pair that consumes the later
    BUY lot, with a holding period of -1 day; nothing in the scan of the lots
    compares the lot's date with the sell's. *)
Theorem calculateFIFOPairs_matches_later_buy :
  let h := storeOf sellBeforeBuy in
  exists p,
    snd (calculateFIFOPairs codeUnitCompare noISO h [0; 1]%nat) = [p] /\
    sellTrade p = 0%nat /\
    date (h (sellTrade p)) = "7/24/2025"%string /\
    date (buyTrade p) = "7/25/2025"%string /\
    ltb (getTime (parseDate noISO (date (h (sellTrade p)))))
        (getTime (parseDate noISO (date (buyTrade p)))) = true /\
    holdingPeriod p = ofZ (-1) /\
    ltb (holdingPeriod p) zero = true.
Proof.
  cbv zeta. eexists. split; [vm_compute; reflexivity |].
  cbn [sellTrade buyTrade holdingPeriod date].
  repeat split; vm_compute; reflexivity.
Qed.

(** ** C3 and C4: the pairs that are emitted *)

Lemma frames_symbol (buys : list ref) (h h' : store) (r : ref) :
  frames buys h h' -> symbol (h' r) = symbol (h r).
Proof. intro F. apply sameButQuantity_fields, F. Qed.

Lemma frames_price (buys : list ref) (h h' : store) (r : ref) :
  frames buys h h' -> price (h' r) = price (h r).
Proof. intro F. apply sameButQuantity_fields, F. Qed.

Lemma frames_date (buys : list ref) (h h' : store) (r : ref) :
  frames buys h h' -> date (h' r) = date (h r).
Proof. intro F. apply sameButQuantity_fields, F. Qed.

Lemma frames_side (buys : list ref) (h h' : store) (r : ref) :
  frames buys h h' -> side (h' r) = side (h r).
Proof. intro F. apply sameButQuantity_fields, F. Qed.

(** The contributions recorded by the scan are lots of [buys] of the sell's
    symbol, appended in the order of the scan. *)
Lemma matchLots_matched (sell : ref) (buys : list ref) :
  forall h remaining matched,
    exists new,
      snd (matchLots h sell buys remaining matched) = matched ++ new /\
      Forall (fun c => In (fst c) buys /\ symbol (h (fst c)) = symbol (h sell)) new.
Proof.
  induction buys as [| b rest IH]; intros h remaining matched; cbn [matchLots].
  - exists []. rewrite app_nil_r. split; [reflexivity | constructor].
  - destruct (gtb remaining zero);
      [| exists []; rewrite app_nil_r; split; [reflexivity | constructor]].
    destruct (String.eqb (symbol (h b)) (symbol (h sell))
              && gtb (quantity (h b)) zero) eqn:M.
    + apply andb_prop in M. destruct M as [Sy _]. apply String.eqb_eq in Sy.
      set (h1 := update h b _).
      assert (S1 : forall x, symbol (h1 x) = symbol (h x)).
      { intro x. unfold h1, update. destruct (Nat.eqb_spec x b) as [-> | _]; reflexivity. }
      destruct (IH h1 (remaining - Math_min remaining (quantity (h b)))%num
                  (matched ++ [(b, Math_min remaining (quantity (h b)))]))
        as (new & E & F).
      exists ((b, Math_min remaining (quantity (h b))) :: new).
      rewrite E, <- app_assoc. split; [reflexivity |].
      constructor; [split; [left; reflexivity | exact Sy] |].
      eapply Forall_impl; [| exact F]. cbn beta.
      intros c [I Sc]. rewrite !S1 in Sc. split; [right; exact I | exact Sc].
    + destruct (IH h remaining matched) as (new & E & F).
      exists new. split; [exact E |].
      eapply Forall_impl; [| exact F]. cbn beta.
      intros c [I Sc]. split; [right; exact I | exact Sc].
Qed.

Lemma sumOver_ext {A : Type} (f g : A -> number) (l : list A) :
  (forall x, In x l -> f x = g x) -> sumOver f l = sumOver g l.
Proof.
  unfold sumOver. generalize zero.
  induction l as [| x l IH]; intros acc E; cbn [fold_left]; [reflexivity |].
  rewrite (E x) by (left; reflexivity).
  apply IH. intros y Hy. apply E. right. exact Hy.
Qed.

Section PairFields.

Variable localeCompare : string -> string -> Z.
Variable parseISO : string -> Date.

(** Every pair comes from one round of the loop over the sells, run in a
    store that differs from the first one only as [frames] allows. *)
Lemma matchSells_In (buys sells : list ref) :
  forall h p,
    In p (snd (matchSells parseISO h buys sells)) ->
    exists h0 s,
      In s sells /\ frames buys h h0 /\
      In p (snd (matchSell parseISO h0 buys s)).
Proof.
  induction sells as [| s rest IH]; intros h p; cbn [matchSells].
  - intros [].
  - pose proof (matchSell_frames parseISO h buys s) as F1.
    destruct (matchSell parseISO h buys s) as [h1 ps] eqn:E1.
    destruct (matchSells parseISO h1 buys rest) as [h2 pairs] eqn:E2.
    cbn [fst snd] in *. intro I. apply in_app_or in I. destruct I as [I | I].
    + exists h, s. split; [left; reflexivity |]. split; [apply frames_refl |].
      rewrite E1. exact I.
    + destruct (IH h1 p) as (h0 & s0 & I0 & F0 & P0).
      { rewrite E2. exact I. }
      exists h0, s0. split; [right; exact I0 |].
      split; [eapply frames_trans; eassumption | exact P0].
Qed.

End PairFields.

(** The single-lot example of the specification: BUY 100 @ 150 on day 1 and
    SELL 50 @ 160 on day 2 give one pair, with a realized P&L of 500 and a
    holding period of one day. *)
Lemma singleLot_pair :
  exists p,
    snd (calculateFIFOPairs codeUnitCompare noISO (storeOf singleLot) [0; 1]%nat) = [p] /\
    realizedPnL p = ofZ 500 /\ holdingPeriod p = ofZ 1 /\
    price (buyTrade p) = ofZ 150.
Proof. eexists. split; [vm_compute; reflexivity |]. repeat split. Qed.

(** *** The matcher of the code and the matcher of the specification *)

(** While the quantity that remains of a sell is finite and not negative,
    the test [> 0] of the loop and the test [== 0] of the specification
    agree, and a step of the scan keeps it finite and not negative. *)
Lemma nonNegativeFinite_guard (a : number) :
  nonNegativeFinite a -> gtb a zero = negb (eqb a zero).
Proof.
  intros (q & -> & P). unfold gtb, ltb, eqb, zero.
  destruct (Qltb 0 q) eqn:L.
  - apply Qltb_lt in L. destruct (Qeq_bool q 0) eqn:E; [| reflexivity].
    apply Qeq_bool_iff in E. lra.
  - apply Qltb_ge in L. assert (E : (q == 0)%Q) by lra.
    apply Qeq_bool_iff in E. rewrite E. reflexivity.
Qed.

Lemma nonNegativeFinite_step (remaining lot : number) :
  nonNegativeFinite remaining -> gtb lot zero = true ->
  nonNegativeFinite (remaining - Math_min remaining lot)%num.
Proof.
  intros (r & -> & Pr) Pl. apply gtb_zero_inv in Pl.
  destruct Pl as [-> | (x & -> & Px)].
  - exists (Qred (r - r)). split; [reflexivity |]. rewrite Qred_correct. lra.
  - unfold Math_min, ltb. destruct (Qltb x r) eqn:L.
    + apply Qltb_lt in L. exists (Qred (r - x)). split; [reflexivity |].
      rewrite Qred_correct. lra.
    + exists (Qred (r - r)). split; [reflexivity |]. rewrite Qred_correct. lra.
Qed.

Lemma buyLots_update (h : store) (b : ref) (t : Trade) (buys : list ref) :
  ~ In b buys -> buyLots (update h b t) buys = buyLots h buys.
Proof.
  intro N. unfold buyLots. apply map_ext_in. intros x Ix.
  rewrite update_other; [reflexivity |]. intros ->. contradiction.
Qed.

(** The scan of the code and the scan of the specification. *)
Lemma matchLots_scanLots (h0 : store) (sell : ref) (buys : list ref) :
  forall h remaining matched,
    NoDup buys ->
    (forall x, symbol (h x) = symbol (h0 x)) ->
    nonNegativeFinite remaining ->
    let '(h', remaining', matched') := matchLots h sell buys remaining matched in
    let '(lots', remainingSellQty, contributions) :=
      scanLots h0 (symbol (h0 sell)) remaining (buyLots h buys) in
    lots' = buyLots h' buys /\ remainingSellQty = remaining' /\
    matched' = matched ++ contributions /\ nonNegativeFinite remaining'.
Proof.
  induction buys as [| b rest IH]; intros h remaining matched ND Sy NN.
  - cbn. rewrite app_nil_r. repeat split. exact NN.
  - inversion ND as [| ? ? Nb ND']; subst.
    cbn [matchLots buyLots map scanLots sourceRecord remainingQuantity].
    fold (buyLots h rest).
    rewrite (nonNegativeFinite_guard _ NN).
    destruct (eqb remaining zero) eqn:Z; cbn [negb].
    + rewrite app_nil_r. repeat split. exact NN.
    + rewrite <- (Sy b), <- (Sy sell).
      destruct (String.eqb (symbol (h b)) (symbol (h sell))
                && gtb (quantity (h b)) zero) eqn:M.
      * apply andb_prop in M. destruct M as [_ Pl].
        set (m := Math_min remaining (quantity (h b))).
        set (h1 := update h b (setQuantity (h b) (quantity (h b) - m)%num)).
        assert (Sy1 : forall x, symbol (h1 x) = symbol (h0 x)).
        { intro x. unfold h1, update. destruct (Nat.eqb_spec x b) as [-> | _];
            [cbn; apply Sy | apply Sy]. }
        specialize (IH h1 (remaining - m)%num (matched ++ [(b, m)]) ND' Sy1
                      (nonNegativeFinite_step _ _ NN Pl)).
        pose proof (matchLots_frames sell rest h1 (remaining - m)%num
                      (matched ++ [(b, m)]) b) as (_ & O & _).
        destruct (matchLots h1 sell rest (remaining - m)%num (matched ++ [(b, m)]))
          as [[h' remaining'] matched'].
        unfold h1 in IH at 1. rewrite (buyLots_update _ _ _ _ Nb) in IH.
        rewrite (Sy sell).
        destruct (scanLots h0 (symbol (h0 sell)) (remaining - m)%num (buyLots h rest))
          as [[lots' r'] contributions].
        destruct IH as (-> & -> & -> & NN').
        cbn [fst] in O. split.
        -- cbn [buyLots map]. rewrite (O Nb). unfold h1. rewrite update_same.
           reflexivity.
        -- split; [reflexivity |]. split; [| exact NN'].
           rewrite <- app_assoc. reflexivity.
      * specialize (IH h remaining matched ND' Sy NN).
        pose proof (matchLots_frames sell rest h remaining matched b) as (_ & O & _).
        destruct (matchLots h sell rest remaining matched)
          as [[h' remaining'] matched'].
        rewrite (Sy sell).
        destruct (scanLots h0 (symbol (h0 sell)) remaining (buyLots h rest))
          as [[lots' r'] contributions].
        destruct IH as (-> & -> & -> & NN').
        cbn [fst] in O. split.
        -- cbn [buyLots map]. rewrite (O Nb). reflexivity.
        -- repeat split. exact NN'.
Qed.

Lemma setQuantity_frames (buys : list ref) (h h' : store) (r : ref) (q : number) :
  frames buys h h' -> setQuantity (h' r) q = setQuantity (h r) q.
Proof.
  intro F. destruct (F r) as (S & _). unfold sameButQuantity in S.
  rewrite S. reflexivity.
Qed.

Section Refinement.

Variable parseISO : string -> Date.

Lemma matchSell_scanLots (h0 h : store) (buys : list ref) (s : ref) :
  NoDup buys -> frames buys h0 h -> ~ In s buys ->
  nonNegativeFinite (quantity (h0 s)) ->
  let '(h', ps) := matchSell parseISO h buys s in
  let '(lots', remainingSellQty, contributions) :=
    scanLots h0 (symbol (h0 s)) (quantity (h0 s)) (buyLots h buys) in
  lots' = buyLots h' buys /\ frames buys h0 h' /\
  Forall2 (fun p sc => pairFields parseISO h0 (fst sc) (snd sc) p) ps
    (if complete (mkOutcome s remainingSellQty contributions)
     then [(s, contributions)] else []).
Proof.
  intros ND F Ns NN.
  assert (Es : h s = h0 s) by (destruct (F s) as (_ & O & _); apply O; exact Ns).
  pose proof (matchLots_scanLots h0 s buys h (quantity (h0 s)) [] ND
                (fun x => frames_symbol _ _ _ x F) NN) as R.
  pose proof (matchLots_frames s buys h (quantity (h0 s)) []) as F1.
  unfold matchSell. rewrite Es.
  destruct (matchLots h s buys (quantity (h0 s)) []) as [[h' rem] matched].
  destruct (scanLots h0 (symbol (h0 s)) (quantity (h0 s)) (buyLots h buys))
    as [[lots' r'] contributions].
  destruct R as (-> & -> & -> & _). cbn [fst app] in *.
  pose proof (frames_trans _ _ _ _ F F1) as F'.
  unfold complete. cbn [o_remaining o_contributions].
  destruct contributions as [| [first qty] rest].
  - rewrite andb_false_r. split; [reflexivity | split; [exact F' | constructor]].
  - cbn [List.length Nat.eqb negb]. rewrite andb_true_r.
    destruct (eqb rem zero); (split; [reflexivity |]); (split; [exact F' |]);
      [| constructor].
    constructor; [| constructor].
    cbn [fst snd pairFields]. unfold makePair.
    cbn [sellTrade buyTrade realizedPnL realizedPnLPercent holdingPeriod].
    assert (Es' : h' s = h0 s)
      by (destruct (F' s) as (_ & O & _); apply O; exact Ns).
    assert (Ev : totalBuyValue h' ((first, qty) :: rest)
                 = sumOver (fun c => price (h0 (fst c)) * snd c)%num
                     ((first, qty) :: rest)).
    { change (totalBuyValue h' ((first, qty) :: rest))
        with (sumOver (fun c => price (h' (fst c)) * snd c)%num ((first, qty) :: rest)).
      apply sumOver_ext. intros c _.
      rewrite (frames_price _ _ _ (fst c) F'). reflexivity. }
    rewrite Es', Ev, (frames_date _ _ _ first F'),
      (setQuantity_frames _ _ _ first _ F').
    fold (sumOver snd ((first, qty) :: rest)).
    fold (weightedAvgPrice h0 ((first, qty) :: rest)).
    repeat split.
Qed.

Lemma matchSells_matchFIFO (h0 : store) (buys sells : list ref) :
  forall h,
    NoDup buys -> frames buys h0 h ->
    Forall (fun s => ~ In s buys /\ nonNegativeFinite (quantity (h0 s))) sells ->
    Forall2 (fun p sc => pairFields parseISO h0 (fst sc) (snd sc) p)
      (snd (matchSells parseISO h buys sells))
      (matchFIFO h0 (buyLots h buys) sells).
Proof.
  induction sells as [| s rest IH]; intros h ND F A; unfold matchFIFO;
    cbn [matchSells scanAll].
  - constructor.
  - inversion A as [| ? ? [Ns NN] A']; subst.
    pose proof (matchSell_scanLots h0 h buys s ND F Ns NN) as R.
    destruct (matchSell parseISO h buys s) as [h1 ps].
    destruct (scanLots h0 (symbol (h0 s)) (quantity (h0 s)) (buyLots h buys))
      as [[lots' r'] contributions].
    destruct R as (-> & F1 & P).
    specialize (IH h1 ND F1 A').
    destruct (matchSells parseISO h1 buys rest) as [h2 pairs].
    cbn [snd filter] in *.
    unfold matchFIFO in IH.
    destruct (complete (mkOutcome s r' contributions));
      cbn [map o_sell o_contributions].
    + change (?x :: ?l) with ([x] ++ l). apply Forall2_app; assumption.
    + inversion P; subst. exact IH.
Qed.

End Refinement.

Lemma NoDup_map_filter {A B : Type} (g : A -> B) (f : A -> bool) (l : list A) :
  NoDup (map g l) -> NoDup (map g (filter f l)).
Proof.
  induction l as [| x l IH]; cbn [map filter]; [auto |].
  intro ND. inversion ND as [| ? ? NI ND']; subst.
  destruct (f x); cbn [map]; [| apply IH; exact ND'].
  constructor; [| apply IH; exact ND'].
  intro I. apply NI. apply in_map_iff in I. destruct I as (y & E & Iy).
  apply in_map_iff. exists y. split; [exact E |]. apply filter_In in Iy. apply Iy.
Qed.

Lemma NoDup_map_eq {A B : Type} (f : A -> B) (l : list A) (x y : A) :
  NoDup (map f l) -> In x l -> In y l -> f x = f y -> x = y.
Proof.
  induction l as [| a l IH]; cbn [map In]; [intros _ [] |].
  intros ND Ix Iy E. inversion ND as [| ? ? Na ND']; subst.
  destruct Ix as [-> | Ix], Iy as [-> | Iy].
  - reflexivity.
  - exfalso. apply Na. rewrite E. apply in_map. exact Iy.
  - exfalso. apply Na. rewrite <- E. apply in_map. exact Ix.
  - apply IH; assumption.
Qed.

Lemma Forall2_In_l {A B : Type} (R : A -> B -> Prop) (l : list A) (l' : list B) (x : A) :
  Forall2 R l l' -> In x l -> exists y, In y l' /\ R x y.
Proof.
  induction 1 as [| a b l l' Rab _ IH]; intros I; [destruct I |].
  destruct I as [-> | I].
  - exists b. split; [left; reflexivity | exact Rab].
  - destruct (IH I) as (y & Iy & Ry). exists y. split; [right; exact Iy | exact Ry].
Qed.

Lemma Forall2_map_eq {A B C : Type} (R : A -> B -> Prop) (f : A -> C) (g : B -> C)
  (l : list A) (l' : list B) :
  (forall a b, R a b -> f a = g b) -> Forall2 R l l' -> map f l = map g l'.
Proof.
  intros E. induction 1 as [| a b l l' Rab _ IH]; cbn [map]; [reflexivity |].
  rewrite (E a b Rab), IH. reflexivity.
Qed.

(** What the matcher of the specification records for a sell: lots of the
    table, of the sell's symbol. *)
Lemma buyLots_records (h : store) (buys : list ref) :
  map sourceRecord (buyLots h buys) = buys.
Proof.
  unfold buyLots. rewrite map_map. cbn [sourceRecord]. apply map_id.
Qed.

Lemma scanLots_contributions (h : store) (sym : string) (lots : list Lot) :
  forall remaining,
    map sourceRecord (fst (fst (scanLots h sym remaining lots)))
    = map sourceRecord lots /\
    Forall (fun c => In (fst c) (map sourceRecord lots) /\ symbol (h (fst c)) = sym)
           (snd (scanLots h sym remaining lots)).
Proof.
  induction lots as [| lot rest IH]; intro remaining; cbn [scanLots].
  - split; [reflexivity | constructor].
  - destruct (eqb remaining zero); [split; [reflexivity | constructor] |].
    destruct (String.eqb (symbol (h (sourceRecord lot))) sym
              && gtb (remainingQuantity lot) zero) eqn:M.
    + apply andb_prop in M. destruct M as [Sy _]. apply String.eqb_eq in Sy.
      specialize (IH (remaining - Math_min remaining (remainingQuantity lot))%num).
      destruct (scanLots h sym
                  (remaining - Math_min remaining (remainingQuantity lot))%num rest)
        as [[rest' r'] consumed].
      cbn [fst snd map sourceRecord] in *. destruct IH as [E F].
      split; [rewrite E; reflexivity |].
      constructor; [split; [left; reflexivity | exact Sy] |].
      eapply Forall_impl; [| exact F]. cbn beta.
      intros c [Ic Sc]. split; [right; exact Ic | exact Sc].
    + specialize (IH remaining).
      destruct (scanLots h sym remaining rest) as [[rest' r'] consumed].
      cbn [fst snd map] in *. destruct IH as [E F].
      split; [rewrite E; reflexivity |].
      eapply Forall_impl; [| exact F]. cbn beta.
      intros c [Ic Sc]. split; [right; exact Ic | exact Sc].
Qed.

Lemma matchFIFO_contributions (h : store) (sells : list ref) :
  forall lots s consumed,
    In (s, consumed) (matchFIFO h lots sells) ->
    In s sells /\
    Forall (fun c => In (fst c) (map sourceRecord lots) /\
                     symbol (h (fst c)) = symbol (h s)) consumed.
Proof.
  unfold matchFIFO.
  induction sells as [| s0 rest IH]; intros lots s consumed; cbn [scanAll filter map].
  - intros [].
  - pose proof (scanLots_contributions h (symbol (h s0)) lots (quantity (h s0)))
      as [E F].
    destruct (scanLots h (symbol (h s0)) (quantity (h s0)) lots)
      as [[lots' r] c0].
    cbn [fst snd filter] in *.
    assert (Rest : In (s, consumed)
                     (map (fun o => (o_sell o, o_contributions o))
                        (filter complete (scanAll h lots' rest))) ->
                   In s (s0 :: rest) /\
                   Forall (fun c => In (fst c) (map sourceRecord lots) /\
                                    symbol (h (fst c)) = symbol (h s)) consumed).
    { intro I. destruct (IH lots' s consumed I) as [Is Fs].
      split; [right; exact Is |]. rewrite <- E. exact Fs. }
    destruct (complete (mkOutcome s0 r c0)); [| exact Rest].
    cbn [map In o_sell o_contributions].
    intros [I | I]; [| exact (Rest I)].
    injection I as <- <-. split; [left; reflexivity | exact F].
Qed.

Section Pairs.

Variable localeCompare : string -> string -> Z.
Variable parseISO : string -> Date.

Lemma buyTrades_NoDup (h : store) (trades : list ref) :
  NoDup trades -> NoDup (buyTrades localeCompare parseISO h trades).
Proof.
  intro ND. unfold buyTrades, sortedTrades. apply NoDup_filter.
  eapply Permutation_NoDup; [apply Permutation_sym, sort_Permutation | exact ND].
Qed.

Lemma sellTrades_NoDup (h : store) (trades : list ref) :
  NoDup trades -> NoDup (sellTrades localeCompare parseISO h trades).
Proof.
  intro ND. unfold sellTrades, sortedTrades. apply NoDup_filter.
  eapply Permutation_NoDup; [apply Permutation_sym, sort_Permutation | exact ND].
Qed.

(** The lots and the sells in any order in which a sort may leave them. *)
Lemma scanned_matchFIFO (h : store) (trades buys sells : list ref) :
  NoDup trades -> sellQuantities h trades ->
  Permutation buys (buyTrades localeCompare parseISO h trades) ->
  Permutation sells (sellTrades localeCompare parseISO h trades) ->
  Forall2 (fun p sc => pairFields parseISO h (fst sc) (snd sc) p)
    (snd (matchSells parseISO h buys sells))
    (matchFIFO h (buyLots h buys) sells).
Proof.
  intros ND Q Pb Ps.
  apply matchSells_matchFIFO; [| apply frames_refl |].
  - eapply Permutation_NoDup; [apply Permutation_sym; exact Pb |].
    apply buyTrades_NoDup. exact ND.
  - apply Forall_forall. intros s Is.
    apply (Permutation_in _ Ps), sellTrades_In in Is.
    destruct Is as [It Ns]. split.
    + intro Ib. apply (Permutation_in _ Pb), buyTrades_In in Ib.
      destruct Ib as [_ B]. contradiction.
    + unfold sellQuantities in Q. rewrite Forall_forall in Q. exact (Q s It Ns).
Qed.

(** C3: for distinct records whose SELL quantities are finite and not
    negative, and in whatever order the sort leaves the BUY lots and the
    sells ([calculateFIFOPairs] is [matchSells] on [buyTrades] and
    [sellTrades]), every emitted pair is the pair of one SELL record of the
    input and of the contributions that the matcher of the specification
    records for it: a non-empty list [(lot, qty)] of BUY records of the input
    of the sell's symbol.  Its virtual buy is the first contribution's lot
    with the sell's quantity and the weighted average price
    sum(price * qty) / sum(qty) over the contributions; the realized P&L is
    (sell price - weighted average) * sell quantity; the percentage is
    realizedPnL / (weighted average * sell quantity) * 100 when the weighted
    average is positive and 0 otherwise; the holding period is
    [differenceInDays] of the sell's date and the date of the first
    contribution's lot. *)
Theorem calculateFIFOPairs_pair_fields (h : store) (trades buys sells : list ref)
  (p : TradePair) :
  NoDup trades -> sellQuantities h trades ->
  Permutation buys (buyTrades localeCompare parseISO h trades) ->
  Permutation sells (sellTrades localeCompare parseISO h trades) ->
  In p (snd (matchSells parseISO h buys sells)) ->
  exists first qty rest,
    let contributions := (first, qty) :: rest in
    let sellRecord := h (sellTrade p) in
    let avg := weightedAvgPrice h contributions in
    In (sellTrade p) trades /\ side sellRecord <> BUY /\
    In (sellTrade p, contributions) (matchFIFO h (buyLots h buys) sells) /\
    Forall (fun c => In (fst c) trades /\ side (h (fst c)) = BUY /\
                     symbol (h (fst c)) = symbol sellRecord) contributions /\
    buyTrade p = setPrice (setQuantity (h first) (quantity sellRecord)) avg /\
    realizedPnL p = ((price sellRecord - avg) * quantity sellRecord)%num /\
    realizedPnLPercent p =
      (if gtb avg zero
       then (realizedPnL p / (avg * quantity sellRecord) * ofZ 100)%num
       else zero) /\
    holdingPeriod p =
      differenceInDays (parseDate parseISO (date sellRecord))
                       (parseDate parseISO (date (h first))).
Proof.
  intros ND Q Pb Ps I.
  destruct (Forall2_In_l _ _ _ p (scanned_matchFIFO h trades buys sells ND Q Pb Ps) I)
    as ([s consumed] & Isc & P).
  cbn [fst snd] in P. destruct consumed as [| [first qty] rest]; [destruct P |].
  cbn [pairFields] in P. destruct P as (Es & P). subst s.
  pose proof (matchFIFO_contributions h _ _ _ _ Isc) as (Is & Fc).
  apply (Permutation_in _ Ps), sellTrades_In in Is. destruct Is as [It Ns].
  exists first, qty, rest. cbv zeta.
  split; [exact It |]. split; [exact Ns |]. split; [exact Isc |].
  split; [| exact P].
  eapply Forall_impl; [| exact Fc]. cbn beta. intros c [Ic Sc].
  rewrite buyLots_records in Ic. apply (Permutation_in _ Pb), buyTrades_In in Ic.
  destruct Ic as [Ict Icb]. repeat split; assumption.
Qed.

Lemma scanAll_sells (h : store) (sells : list ref) :
  forall lots, map o_sell (scanAll h lots sells) = sells.
Proof.
  induction sells as [| s rest IH]; intro lots; cbn [scanAll map]; [reflexivity |].
  destruct (scanLots h (symbol (h s)) (quantity (h s)) lots) as [[lots' r] c].
  cbn [map o_sell]. rewrite IH. reflexivity.
Qed.

(** C4, amended: for distinct records whose SELL quantities are finite and
    not negative, and in whatever order the sort leaves the BUY lots and the
    sells ([calculateFIFOPairs] is [matchSells] on [buyTrades] and
    [sellTrades]), the matcher of the specification has one outcome for each
    SELL record, in order, and the pairs returned are, in order, one for each
    SELL record whose outcome is complete (nothing remains of its quantity
    and at least one lot has contributed): no SELL record has two pairs, and
    a SELL record whose outcome is not complete has none.  What remains of a
    sell is what the subtractions of the scan leave, lot after lot, not the
    difference between its quantity and the total of the lots. *)
Theorem calculateFIFOPairs_complete_matches (h : store) (trades buys sells : list ref) :
  NoDup trades -> sellQuantities h trades ->
  Permutation buys (buyTrades localeCompare parseISO h trades) ->
  Permutation sells (sellTrades localeCompare parseISO h trades) ->
  let pairs := snd (matchSells parseISO h buys sells) in
  let outcomes := scanAll h (buyLots h buys) sells in
  map o_sell outcomes = sells /\
  map sellTrade pairs = map o_sell (filter complete outcomes) /\
  NoDup (map sellTrade pairs) /\
  (forall o, In o outcomes -> complete o = false ->
             forall p, In p pairs -> sellTrade p <> o_sell o).
Proof.
  intros ND Q Pb Ps. cbv zeta.
  pose proof (scanAll_sells h sells (buyLots h buys)) as Es.
  assert (E : map sellTrade (snd (matchSells parseISO h buys sells))
              = map o_sell (filter complete (scanAll h (buyLots h buys) sells))).
  { transitivity (map fst (matchFIFO h (buyLots h buys) sells)).
    - eapply Forall2_map_eq;
        [| exact (scanned_matchFIFO h trades buys sells ND Q Pb Ps)].
      intros p sc P. cbv beta in P.
      destruct (snd sc) as [| [first qty] rest]; [destruct P | apply P].
    - unfold matchFIFO. rewrite map_map. reflexivity. }
  assert (NDo : NoDup (map o_sell (scanAll h (buyLots h buys) sells))).
  { rewrite Es. eapply Permutation_NoDup; [apply Permutation_sym; exact Ps |].
    apply sellTrades_NoDup. exact ND. }
  split; [exact Es |]. split; [exact E |]. split.
  - rewrite E. apply NoDup_map_filter. exact NDo.
  - intros o Io Co p Ip Ep.
    apply (in_map sellTrade) in Ip. rewrite E, Ep in Ip.
    apply in_map_iff in Ip. destruct Ip as (o' & Eo & Io').
    apply filter_In in Io'. destruct Io' as [Io' Co'].
    rewrite (NoDup_map_eq o_sell _ o' o NDo Io' Io Eo) in Co'. congruence.
Qed.

End Pairs.

(** The single-lot example of the specification, through the theorem. *)
Lemma calculateFIFOPairs_pair_fields_witness :
  exists p,
    In p (snd (calculateFIFOPairs codeUnitCompare noISO (storeOf singleLot) [0; 1]%nat)) /\
    realizedPnL p = ofZ 500 /\ holdingPeriod p = ofZ 1.
Proof.
  destruct singleLot_pair as (p & E & _).
  assert (I : In p (snd (calculateFIFOPairs codeUnitCompare noISO
                           (storeOf singleLot) [0; 1]%nat)))
    by (rewrite E; left; reflexivity).
  exists p. split; [exact I |].
  destruct (calculateFIFOPairs_pair_fields codeUnitCompare noISO
              (storeOf singleLot) [0; 1]%nat
              (buyTrades codeUnitCompare noISO (storeOf singleLot) [0; 1]%nat)
              (sellTrades codeUnitCompare noISO (storeOf singleLot) [0; 1]%nat) p)
    as (first & qty & rest & _ & _ & Isc & _ & _ & Pnl & _ & Hp).
  - repeat constructor; cbn; intuition discriminate.
  - repeat constructor; cbn; intros N; try (exfalso; apply N; reflexivity).
    exists 50%Q. split; [reflexivity | discriminate].
  - apply Permutation_refl.
  - apply Permutation_refl.
  - exact I.
  - cbv zeta in Isc, Pnl, Hp. vm_compute in Isc.
    destruct Isc as [Isc | []]. injection Isc as Es Ef Eq Er.
    subst first qty rest. change (1%nat = sellTrade p) in Es.
    rewrite <- Es in Pnl, Hp.
    split; [rewrite Pnl | rewrite Hp]; vm_compute; reflexivity.
Defined.

(** BUY 100, SELL 150, SELL 50: no sell is complete; BUY 100, BUY 50,
    SELL 120: the sell is complete. *)
Lemma calculateFIFOPairs_complete_matches_witness :
  map sellTrade
    (snd (calculateFIFOPairs codeUnitCompare noISO (storeOf oversold) [0; 1; 2]%nat))
  = [] /\
  map sellTrade
    (snd (calculateFIFOPairs codeUnitCompare noISO (storeOf twoLots) [0; 1; 2]%nat))
  = [2%nat].
Proof.
  split.
  - destruct (calculateFIFOPairs_complete_matches codeUnitCompare noISO
                (storeOf oversold) [0; 1; 2]%nat
                (buyTrades codeUnitCompare noISO (storeOf oversold) [0; 1; 2]%nat)
                (sellTrades codeUnitCompare noISO (storeOf oversold) [0; 1; 2]%nat))
      as (_ & E & _).
    + repeat constructor; cbn; intuition discriminate.
    + repeat constructor; cbn; intros N; try (exfalso; apply N; reflexivity).
      * exists 150%Q. split; [reflexivity | discriminate].
      * exists 50%Q. split; [reflexivity | discriminate].
    + apply Permutation_refl.
    + apply Permutation_refl.
    + unfold calculateFIFOPairs. rewrite E. vm_compute. reflexivity.
  - destruct (calculateFIFOPairs_complete_matches codeUnitCompare noISO
                (storeOf twoLots) [0; 1; 2]%nat
                (buyTrades codeUnitCompare noISO (storeOf twoLots) [0; 1; 2]%nat)
                (sellTrades codeUnitCompare noISO (storeOf twoLots) [0; 1; 2]%nat))
      as (_ & E & _).
    + repeat constructor; cbn; intuition discriminate.
    + repeat constructor; cbn; intros N; try (exfalso; apply N; reflexivity).
      exists 120%Q. split; [reflexivity | discriminate].
    + apply Permutation_refl.
    + apply Permutation_refl.
    + unfold calculateFIFOPairs. rewrite E. vm_compute. reflexivity.
Defined.

(** C4 as stated does not hold: in binary64 arithmetic a SELL can be
    complete although its quantity exceeds the total of the lots.
    3474.27 - 837.36 rounds to 2636.91, and (2^53 + 2) - 1 rounds to 2^53, so
    the second lot brings what remains to 0 and a pair is pushed. *)
Theorem rounding_completes_oversold_sell :
  (exceeds roundedLots /\
   Double.pushesPair (Double.storeOf roundedLots) [0; 1]%nat 2%nat = true) /\
  (exceeds integerLots /\
   Double.pushesPair (Double.storeOf integerLots) [0; 1]%nat 2%nat = true).
Proof. repeat split; vm_compute; reflexivity. Qed.

(** ** C10: what a dropped sell has consumed *)

Lemma matchLots_stopped (h : store) (sell : ref) (buys : list ref)
  (remaining : number) (matched : list (ref * number)) :
  gtb remaining zero = false ->
  matchLots h sell buys remaining matched = (h, remaining, matched).
Proof. intro G. destruct buys; cbn [matchLots]; [reflexivity | rewrite G; reflexivity]. Qed.

(** When the scan goes on after taking from a lot, the lot is empty. *)
Lemma lot_emptied (remaining lot : number) :
  gtb remaining zero = true -> gtb lot zero = true ->
  gtb (remaining - Math_min remaining lot)%num zero = true ->
  gtb (lot - Math_min remaining lot)%num zero = false.
Proof.
  intros Pr Pl. apply gtb_zero_inv in Pr. apply gtb_zero_inv in Pl.
  destruct Pr as [-> | (r & -> & Pr)], Pl as [-> | (x & -> & Px)].
  - cbn. discriminate.
  - intros _. unfold Math_min, ltb, sub, fin. apply gtb_zero_Fin_false.
    rewrite Qred_correct. lra.
  - unfold Math_min, ltb, sub, fin. intro G. apply gtb_zero_Fin in G.
    rewrite Qred_correct in G. lra.
  - unfold Math_min, ltb. destruct (Qltb x r) eqn:L.
    + intros _. unfold sub, fin. apply gtb_zero_Fin_false. rewrite Qred_correct. lra.
    + unfold sub, fin. intro G. apply gtb_zero_Fin in G. rewrite Qred_correct in G. lra.
Qed.


(** A scan that finds no lot to consume records nothing. *)
Lemma matchLots_nothing (sell : ref) (buys : list ref) :
  forall h remaining matched,
    (forall b, In b buys -> symbol (h b) = symbol (h sell) ->
               gtb (quantity (h b)) zero = false) ->
    snd (matchLots h sell buys remaining matched) = matched.
Proof.
  induction buys as [| b rest IH]; intros h remaining matched Z; cbn [matchLots].
  - reflexivity.
  - destruct (gtb remaining zero); [| reflexivity].
    destruct (String.eqb (symbol (h b)) (symbol (h sell))) eqn:Sy.
    + apply String.eqb_eq in Sy.
      rewrite (Z b (or_introl eq_refl) Sy). cbn [andb].
      apply IH. intros c I. apply Z. right. exact I.
    + cbn [andb]. apply IH. intros c I. apply Z. right. exact I.
Qed.

(** *** Dropped sells *)

(** A scan that records nothing leaves the remaining quantity as it was. *)
Lemma matchLots_none (sell : ref) (buys : list ref) :
  forall h remaining matched,
    snd (matchLots h sell buys remaining matched) = matched ->
    snd (fst (matchLots h sell buys remaining matched)) = remaining.
Proof.
  induction buys as [| b rest IH]; intros h remaining matched; cbn [matchLots].
  - reflexivity.
  - destruct (gtb remaining zero); [| reflexivity].
    destruct (String.eqb (symbol (h b)) (symbol (h sell))
              && gtb (quantity (h b)) zero); [| apply IH].
    intro E. exfalso.
    destruct (matchLots_matched sell rest
                (update h b (setQuantity (h b)
                   (quantity (h b) - Math_min remaining (quantity (h b)))%num))
                (remaining - Math_min remaining (quantity (h b)))%num
                (matched ++ [(b, Math_min remaining (quantity (h b)))]))
      as (new & En & _).
    rewrite E in En. apply (f_equal (@List.length _)) in En.
    rewrite !length_app in En. cbn [List.length] in En. lia.
Qed.

(** When quantity remains at the end of the scan, every lot of the symbol
    is left without quantity. *)
Lemma matchLots_dropped (sell : ref) (buys : list ref) :
  forall h remaining matched,
    nonNegativeFinite remaining ->
    eqb (snd (fst (matchLots h sell buys remaining matched))) zero = false ->
    forall b, In b buys -> symbol (h b) = symbol (h sell) ->
      gtb (quantity (fst (fst (matchLots h sell buys remaining matched)) b)) zero = false.
Proof.
  induction buys as [| b0 rest IH]; intros h remaining matched NN Z b Ib Sy;
    [destruct Ib |].
  assert (Pr : gtb remaining zero = true).
  { destruct (gtb remaining zero) eqn:G; [reflexivity | exfalso].
    rewrite matchLots_stopped in Z by exact G. cbn [fst snd] in Z.
    rewrite (nonNegativeFinite_guard _ NN), Z in G. discriminate. }
  cbn [matchLots] in *. rewrite Pr in *.
  destruct (String.eqb (symbol (h b0)) (symbol (h sell))
            && gtb (quantity (h b0)) zero) eqn:M.
  - apply andb_prop in M. destruct M as [_ Pl].
    set (m := Math_min remaining (quantity (h b0))) in *.
    set (h1 := update h b0 (setQuantity (h b0) (quantity (h b0) - m)%num)) in *.
    assert (S1 : forall x, symbol (h1 x) = symbol (h x)).
    { intro x. unfold h1, update. destruct (Nat.eqb_spec x b0) as [-> | _]; reflexivity. }
    pose proof (nonNegativeFinite_step _ _ NN Pl) as NN1. fold m in NN1.
    assert (Pr1 : gtb (remaining - m)%num zero = true).
    { destruct (gtb (remaining - m)%num zero) eqn:G; [reflexivity | exfalso].
      rewrite matchLots_stopped in Z by exact G. cbn [fst snd] in Z.
      rewrite (nonNegativeFinite_guard _ NN1), Z in G. discriminate. }
    destruct (in_dec Nat.eq_dec b rest) as [Ir | Nr].
    + apply (IH h1 _ _ NN1 Z b Ir). rewrite !S1. exact Sy.
    + destruct Ib as [<- | Ir]; [| contradiction].
      destruct (matchLots_frames sell rest h1 (remaining - m)%num
                  (matched ++ [(b0, m)]) b0) as (_ & O & _).
      rewrite (O Nr). unfold h1. rewrite update_same. cbn [quantity setQuantity].
      apply lot_emptied; assumption.
  - destruct Ib as [<- | Ir].
    + rewrite (proj2 (String.eqb_eq _ _) Sy) in M. cbn [andb] in M.
      destruct (matchLots_frames sell rest h remaining matched b0) as (_ & _ & K).
      rewrite (K M). exact M.
    + apply (IH h _ _ NN Z b Ir Sy).
Qed.

Section Dropped.

Variable parseISO : string -> Date.

Lemma matchSell_dropped (h : store) (buys : list ref) (s : ref) (q : Q) :
  quantity (h s) = Fin q -> (0 < q)%Q ->
  snd (matchSell parseISO h buys s) = [] ->
  forall b, In b buys -> symbol (h b) = symbol (h s) ->
            gtb (quantity (fst (matchSell parseISO h buys s) b)) zero = false.
Proof.
  intros Eq Pq D.
  assert (NN : nonNegativeFinite (quantity (h s)))
    by (exists q; split; [exact Eq | lra]).
  pose proof (matchLots_dropped s buys h (quantity (h s)) [] NN) as L.
  pose proof (matchLots_none s buys h (quantity (h s)) []) as N.
  unfold matchSell in *.
  destruct (matchLots h s buys (quantity (h s)) []) as [[h' rem] matched].
  cbn [fst snd] in *.
  assert (Z : eqb rem zero = false).
  { destruct matched as [| [first x] rest].
    - rewrite (N eq_refl), Eq. cbn [eqb zero].
      destruct (Qeq_bool q 0) eqn:E; [| reflexivity].
      apply Qeq_bool_iff in E. lra.
    - destruct (eqb rem zero); [discriminate D | reflexivity]. }
  destruct matched as [| [first x] rest]; [exact (L Z) |].
  rewrite Z. exact (L Z).
Qed.

Lemma matchSell_sellTrade (h : store) (buys : list ref) (s : ref) (p : TradePair) :
  In p (snd (matchSell parseISO h buys s)) -> sellTrade p = s.
Proof.
  unfold matchSell.
  destruct (matchLots h s buys (quantity (h s)) []) as [[h' rem] matched].
  destruct matched as [| [first x] rest]; [intros [] |].
  destruct (eqb rem zero); [| intros []].
  intros [<- | []]. reflexivity.
Qed.

(** C10: a SELL of a positive finite quantity that pushes no pair has
    still consumed: in the store it leaves, every lot of its symbol is without
    quantity; the later sells run in that store; and none of them that has
    the same symbol is ever matched. *)
Theorem oversold_sell_consumes_lots (h : store) (buys : list ref)
  (s : ref) (rest : list ref) (q : Q) :
  quantity (h s) = Fin q -> (0 < q)%Q ->
  snd (matchSell parseISO h buys s) = [] ->
  let h' := fst (matchSell parseISO h buys s) in
  (forall b, In b buys -> symbol (h b) = symbol (h s) ->
             gtb (quantity (h' b)) zero = false) /\
  matchSells parseISO h buys (s :: rest) = matchSells parseISO h' buys rest /\
  (forall p, In p (snd (matchSells parseISO h buys (s :: rest))) ->
             symbol (h (sellTrade p)) <> symbol (h s)).
Proof.
  intros Eq Pq P. cbv zeta.
  pose proof (matchSell_dropped h buys s q Eq Pq P) as Z.
  pose proof (matchSell_frames parseISO h buys s) as F1.
  assert (E : matchSells parseISO h buys (s :: rest)
              = matchSells parseISO (fst (matchSell parseISO h buys s)) buys rest).
  { cbn [matchSells]. destruct (matchSell parseISO h buys s) as [h1 ps].
    cbn [fst snd] in *. subst ps.
    destruct (matchSells parseISO h1 buys rest) as [h2 pairs]. reflexivity. }
  split; [exact Z |]. split; [exact E |].
  rewrite E. intros p I Sy.
  apply matchSells_In in I. destruct I as (h0 & s0 & _ & F0 & Ip).
  pose proof (frames_trans _ _ _ _ F1 F0) as F.
  pose proof (matchSell_sellTrade h0 buys s0 p Ip) as Es.
  subst s0. unfold matchSell in Ip.
  assert (N : snd (matchLots h0 (sellTrade p) buys (quantity (h0 (sellTrade p))) [])
              = []).
  { apply matchLots_nothing. intros b Ib Sb.
    rewrite !(frames_symbol _ _ _ _ F) in Sb.
    assert (Zb : gtb (quantity (fst (matchSell parseISO h buys s) b)) zero = false).
    { apply Z; [exact Ib |]. rewrite Sb. exact Sy. }
    destruct (F0 b) as (_ & _ & K). rewrite (K Zb). exact Zb. }
  destruct (matchLots h0 (sellTrade p) buys (quantity (h0 (sellTrade p))) [])
    as [[h1 rem] matched].
  cbn [snd] in N. subst matched. destruct Ip.
Qed.

End Dropped.

(** BUY 100, SELL 150, SELL 50: the SELL 150 is dropped and leaves the lot
    empty for the SELL 50. *)
Lemma oversold_sell_consumes_lots_witness :
  gtb (quantity (fst (matchSell noISO (storeOf oversold) [0%nat] 1%nat) 0%nat)) zero
  = false /\
  matchSells noISO (storeOf oversold) [0%nat] [1; 2]%nat
  = matchSells noISO (fst (matchSell noISO (storeOf oversold) [0%nat] 1%nat))
      [0%nat] [2%nat].
Proof.
  destruct (oversold_sell_consumes_lots noISO (storeOf oversold) [0%nat] 1%nat
              [2%nat] 150%Q) as (Z & E & _).
  - reflexivity.
  - reflexivity.
  - vm_compute. reflexivity.
  - split; [| exact E]. apply Z; [left; reflexivity | reflexivity].
Defined.

Section Matches.

Variable localeCompare : string -> string -> Z.
Variable parseISO : string -> Date.

Lemma matchSell_store (h : store) (buys : list ref) (s : ref) :
  fst (matchSell parseISO h buys s) = scanStore h buys s.
Proof.
  unfold matchSell, scanStore.
  destruct (matchLots h s buys (quantity (h s)) []) as [[h' rem] matched].
  destruct matched as [| [first q] rest]; [reflexivity |].
  destruct (eqb rem zero); reflexivity.
Qed.

End Matches.

(** BUY 100, SELL 150, SELL 50: the oversold SELL 150 empties the lot, so
    the SELL 50 after it finds nothing and no pair at all is returned, while
    without the SELL 150 the SELL 50 is matched. *)
Lemma oversold_example :
  snd (calculateFIFOPairs codeUnitCompare noISO (storeOf oversold) [0; 1; 2]%nat) = [] /\
  quantity (fst (calculateFIFOPairs codeUnitCompare noISO (storeOf oversold)
                   [0; 1; 2]%nat) 0%nat) = zero /\
  map sellTrade
    (snd (calculateFIFOPairs codeUnitCompare noISO (storeOf oversold) [0; 2]%nat))
  = [2%nat].
Proof. repeat split; vm_compute; reflexivity. Qed.

(** ** C5 and C9: the normalizer *)

(** A number that is neither NaN nor [<= 0] is positive, and conversely. *)
Lemma positive_iff (p : number) :
  isNaN p || leb p zero = false <-> gtb p zero = true.
Proof.
  destruct p as [| | | q]; try (cbn; split; congruence).
  unfold gtb, leb, isNaN, ltb, eqb, zero. cbn [orb].
  rewrite Qltb_lt. split.
  - intro H. apply orb_false_elim in H. destruct H as [L E].
    apply Qltb_ge in L. apply Qle_lteq in L. destruct L as [L | L]; [exact L |].
    apply Qeq_bool_neq in E. exfalso. apply E. symmetry. exact L.
  - intro L. apply orb_false_intro.
    + apply Qltb_ge. lra.
    + destruct (Qeq_bool q 0) eqn:E; [| reflexivity].
      apply Qeq_bool_iff in E. lra.
Qed.

(** The rows that are skipped are exactly the rows that fail validation. *)
Lemma processRow_None (index : nat) (r : Row) :
  processRow index r = None <-> rowInvalid r.
Proof.
  unfold processRow, rowInvalid, sideOf.
  destruct (falsy (Instrument r)); [cbn [orb]; tauto |].
  destruct (falsy (TransCode r)); [cbn [orb]; tauto |].
  cbn [orb].
  destruct (String.eqb_spec (trim (valueOf (Instrument r))) "") as [E | NE];
    [tauto |].
  destruct (sideOfTransCode (toUpperCase (valueOf (TransCode r)))) as [sd |];
    [| tauto].
  pose proof (positive_iff (quantityOf r)) as PQ.
  pose proof (positive_iff (priceOf sd (amountOf r) (quantityOf r))) as PP.
  unfold neqb.
  destruct (negb (Side_eqb sd BUY) && negb (Side_eqb sd SELL)) eqn:Sd.
  { split; [intros _ | reflexivity]. do 3 right. left.
    destruct sd; cbn in Sd; try discriminate; split; discriminate. }
  assert (Tr : ~ (sd <> BUY /\ sd <> SELL)).
  { destruct sd; cbn in Sd; try discriminate; intros [A B]; congruence. }
  destruct (isNaN (quantityOf r) || leb (quantityOf r) zero) eqn:Q.
  { split; [intros _ | reflexivity]. do 3 right. right.
    apply orb_prop in Q. tauto. }
  apply orb_false_elim in Q. destruct Q as [Q1 Q2]. 
  rewrite (proj1 PQ) by reflexivity. rewrite andb_true_r.
  destruct (eqb (amountOf r) zero) eqn:A; cbn [negb].
  { tauto. }
  destruct (isNaN (priceOf sd (amountOf r) (quantityOf r))
            || leb (priceOf sd (amountOf r) (quantityOf r)) zero) eqn:P.
  { split; [intros _ | reflexivity]. apply orb_prop in P. tauto. }
  apply orb_false_elim in P. destruct P as [P1 P2].
  destruct (falsy (ActivityDate r)); cbn [orb]; [tauto |].
  destruct (String.eqb_spec (trim (valueOf (ActivityDate r))) "") as [D | ND];
    [tauto |].
  split; [discriminate |].
  intros [H | [H | [H | H]]]; try discriminate; try contradiction.
  destruct H as [H | [H | [H | [H | [H | [H | [H | H]]]]]]];
    try contradiction; congruence.
Qed.

(** The trade that is pushed for a row that passes. *)
Lemma processRow_Some (index : nat) (r : Row) (t : Trade) :
  processRow index r = Some t ->
  exists sd,
    sideOf r = Some sd /\ (sd = BUY \/ sd = SELL) /\
    gtb (priceOf sd (amountOf r) (quantityOf r)) zero = true /\
    t = mkTrade (valueOf (Instrument r) ++ "-" ++ indexString index)
                (trim (valueOf (Instrument r))) sd
                (Math_abs (quantityOf r))
                (priceOf sd (amountOf r) (quantityOf r))
                (valueOf (ActivityDate r)) (Some zero).
Proof.
  unfold processRow, sideOf.
  destruct (falsy (Instrument r) || falsy (TransCode r)
            || String.eqb (trim (valueOf (Instrument r))) ""); [discriminate |].
  destruct (String.eqb (trim (valueOf (Instrument r))) ""); [discriminate |].
  destruct (sideOfTransCode (toUpperCase (valueOf (TransCode r)))) as [sd |];
    [| discriminate].
  destruct (negb (Side_eqb sd BUY) && negb (Side_eqb sd SELL)) eqn:Sd;
    [discriminate |].
  destruct (isNaN (quantityOf r) || leb (quantityOf r) zero); [discriminate |].
  destruct (neqb (amountOf r) zero && gtb (quantityOf r) zero); [| discriminate].
  destruct (isNaN (priceOf sd (amountOf r) (quantityOf r))
            || leb (priceOf sd (amountOf r) (quantityOf r)) zero) eqn:P;
    [discriminate |].
  destruct (falsy (ActivityDate r)
            || String.eqb (trim (valueOf (ActivityDate r))) ""); [discriminate |].
  intro E. injection E as <-.
  exists sd. split; [reflexivity |].
  split; [destruct sd; cbn in Sd; try discriminate; auto |].
  split; [apply positive_iff; exact P | reflexivity].
Qed.

(** C5 as stated does not hold: a row whose amount is infinite has an
    infinite, hence not finite, computed price and is emitted all the same. *)
Lemma processRow_keeps_infinite_price :
  exists t,
    processRow 0 infiniteAmountRow = Some t /\
    price t = (amountOf infiniteAmountRow / quantityOf infiniteAmountRow)%num /\
    price t = PInf /\
    isFinite (price t) = false.
Proof. eexists. split; [vm_compute; reflexivity |]. repeat split. Qed.

(** C5, amended: the price of an emitted record is derived from the amount,
    abs(amount) / quantity for a BUY row and amount / quantity for a SELL row,
    and is positive; a row is skipped when the amount is 0 or when the
    computed price is NaN or [<= 0].  With amount -1500.00 and quantity 100 a
    BUY row gets price 15; with amount 1600.00 and quantity 100 a SELL row
    gets price 16. *)
Theorem processRow_price (index : nat) (r : Row) :
  (forall t, processRow index r = Some t ->
     (side t = BUY /\ price t = (Math_abs (amountOf r) / quantityOf r)%num \/
      side t = SELL /\ price t = (amountOf r / quantityOf r)%num) /\
     gtb (price t) zero = true) /\
  (eqb (amountOf r) zero = true -> processRow index r = None) /\
  (forall sd, sideOf r = Some sd ->
     isNaN (priceOf sd (amountOf r) (quantityOf r)) = true \/
     leb (priceOf sd (amountOf r) (quantityOf r)) zero = true ->
     processRow index r = None) /\
  option_map price (processRow 0 buyRow) = Some (ofZ 15) /\
  option_map price (processRow 1 sellRow) = Some (ofZ 16).
Proof.
  split; [| split; [| split; [| split; vm_compute; reflexivity]]].
  - intros t E. apply processRow_Some in E.
    destruct E as (sd & _ & B & P & ->). cbn [side price].
    split; [| exact P].
    destruct B as [-> | ->]; [left | right]; split; reflexivity.
  - intro Z. apply processRow_None. unfold rowInvalid.
    destruct (sideOf r); tauto.
  - intros sd E P. apply processRow_None. unfold rowInvalid.
    rewrite E. tauto.
Qed.

Lemma processRow_price_witness :
  processRow 0 zeroAmountRow = None /\
  match processRow 0 buyRow with
  | Some t => gtb (price t) zero = true
  | None => True
  end.
Proof.
  destruct (processRow_price 0 zeroAmountRow) as (_ & Z & _).
  destruct (processRow_price 0 buyRow) as (S & _).
  split.
  - apply Z. vm_compute. reflexivity.
  - destruct (processRow 0 buyRow) as [t |]; [| exact I].
    apply (S t eq_refl).
Defined.

Lemma processRows_valid (data : list Row) :
  forall index, processRows index data = validTradesFrom index data.
Proof.
  unfold validTradesFrom.
  induction data as [| r rest IH]; intro index;
    cbn [processRows List.length seq combine flat_map fst snd]; [reflexivity |].
  rewrite <- IH. destruct (processRow index r); reflexivity.
Qed.

Lemma processRows_nil (data : list Row) :
  forall index, processRows index data = [] <-> Forall rowInvalid data.
Proof.
  induction data as [| r rest IH]; intro index; cbn [processRows].
  - split; [constructor | reflexivity].
  - destruct (processRow index r) as [t |] eqn:E.
    + split; [discriminate |]. intro F. inversion F as [| ? ? Hr _]; subst.
      apply (processRow_None index) in Hr. congruence.
    + rewrite IH. split.
      * intro F. constructor; [apply (processRow_None index); exact E | exact F].
      * intro F. inversion F; assumption.
Qed.

(** C9: [parseCSVData] rejects in exactly two cases, no row at all and no
    row that passes validation; otherwise it resolves with the trades of the
    rows that pass, in order.  A row that fails validation (no or blank
    instrument, no transaction code, a code that is not recognized or not a
    trade, a quantity that does not parse or is not positive, a price that
    cannot be derived or is not positive, no or blank activity date) is exactly
    a row for which nothing is pushed, and the loop goes on with the next
    row. *)
Theorem parseCSVData_rejects (data : list Row) :
  (parseCSVData data = Rejected "No data found in CSV file" <-> data = []) /\
  (parseCSVData data
   = Rejected "No valid trades found in CSV file. Please check the format."
   <-> data <> [] /\ Forall rowInvalid data) /\
  (forall message, parseCSVData data = Rejected message ->
                   data = [] \/ Forall rowInvalid data) /\
  (data <> [] -> ~ Forall rowInvalid data ->
   parseCSVData data = Resolved (validTrades data) /\ validTrades data <> []) /\
  (forall index r, rowInvalid r <-> processRow index r = None) /\
  (forall index r rest, rowInvalid r ->
     processRows index (r :: rest) = processRows (S index) rest).
Proof.
  assert (Shape :
    (data = [] /\ parseCSVData data = Rejected "No data found in CSV file") \/
    (data <> [] /\ Forall rowInvalid data /\
     parseCSVData data
     = Rejected "No valid trades found in CSV file. Please check the format.") \/
    (data <> [] /\ ~ Forall rowInvalid data /\ validTrades data <> [] /\
     parseCSVData data = Resolved (validTrades data))).
  { destruct data as [| r rest]; [left; split; reflexivity | right].
    unfold parseCSVData, validTrades.
    pose proof (processRows_nil (r :: rest) 0) as N.
    rewrite <- (processRows_valid (r :: rest) 0).
    destruct (processRows 0 (r :: rest)) as [| t ts].
    - left. split; [discriminate |]. split; [apply N; reflexivity | reflexivity].
    - right. split; [discriminate |]. split; [| split; [discriminate | reflexivity]].
      intro F. apply N in F. discriminate F. }
  split; [| split; [| split; [| split; [| split]]]].
  - destruct Shape as [[E P] | [(N & F & P) | (N & F & V & P)]]; rewrite P;
      split; intro H; try discriminate H; try contradiction; try reflexivity; assumption.
  - destruct Shape as [[E P] | [(N & F & P) | (N & F & V & P)]]; rewrite P;
      split; intro H; try discriminate H; try reflexivity;
      try (destruct H; contradiction); split; assumption.
  - intros message H.
    destruct Shape as [[E P] | [(N & F & P) | (N & F & V & P)]];
      [left; exact E | right; exact F | rewrite P in H; discriminate H].
  - intros N F.
    destruct Shape as [[E P] | [(N' & F' & P) | (N' & F' & V & P)]];
      try contradiction. split; assumption.
  - intros index r. symmetry. apply processRow_None.
  - intros index r rest H. apply (processRow_None index) in H.
    cbn [processRows]. rewrite H. reflexivity.
Qed.

(** A dividend row is skipped and the trade rows around it are kept; a file
    of dividend rows only is rejected. *)
Lemma parseCSVData_rejects_witness :
  parseCSVData [buyRow; dividendRow; sellRow]
  = Resolved (validTrades [buyRow; dividendRow; sellRow]) /\
  processRows 1 [dividendRow; sellRow] = processRows 2 [sellRow] /\
  parseCSVData [dividendRow]
  = Rejected "No valid trades found in CSV file. Please check the format.".
Proof.
  destruct (parseCSVData_rejects [buyRow; dividendRow; sellRow])
    as (_ & _ & _ & Ok & Skip & Next).
  destruct (parseCSVData_rejects [dividendRow]) as (_ & Bad & _).
  assert (D : rowInvalid dividendRow).
  { apply (Skip 0%nat). vm_compute. reflexivity. }
  split; [| split].
  - apply Ok.
    + discriminate.
    + intro F. inversion F as [| ? ? Hb _]; subst.
      apply (Skip 0%nat) in Hb. vm_compute in Hb. discriminate Hb.
  - apply Next. exact D.
  - apply Bad. split; [discriminate | constructor; [exact D | constructor]].
Defined.

(** ** C6, C7 and C8: the position accumulator *)

Lemma mapGet_mapSet_same (m : PositionMap) (k : string) (v : Position) :
  mapGet (mapSet m k v) k = Some v.
Proof.
  induction m as [| [k' v'] m IH]; cbn [mapSet mapGet].
  - rewrite String.eqb_refl. reflexivity.
  - destruct (String.eqb k' k) eqn:E; cbn [mapGet]; rewrite E; [reflexivity | exact IH].
Qed.

Lemma mapSet_values (m : PositionMap) (k : string) (v p : Position) :
  In p (mapValues (mapSet m k v)) -> p = v \/ In p (mapValues m).
Proof.
  unfold mapValues.
  induction m as [| [k' v'] m IH]; cbn [mapSet map In snd].
  - intros [<- | []]. left. reflexivity.
  - destruct (String.eqb k' k); cbn [map In snd].
    + intros [<- | I]; [left; reflexivity | right; right; exact I].
    + intros [<- | I]; [right; left; reflexivity |].
      destruct (IH I) as [-> | J]; [left; reflexivity | right; right; exact J].
Qed.

Lemma mapGet_In (m : PositionMap) (k : string) (p : Position) :
  mapGet m k = Some p -> In p (mapValues m).
Proof.
  unfold mapValues.
  induction m as [| [k' v'] m IH]; cbn [mapGet map In snd]; [discriminate |].
  destruct (String.eqb k' k).
  - intro E. injection E as <-. left. reflexivity.
  - intro E. right. exact (IH E).
Qed.

(** A property of positions that holds of a new position and is kept by
    every assignment holds throughout a run. *)
Section RunInvariant.

Variable good : Position -> Prop.
Variable ok : Trade -> Prop.
Hypothesis good_new : forall symbol, good (newPosition symbol).
Hypothesis good_assignments :
  forall position t, ok t -> good position ->
                     Forall good (assignments position t).

Lemma allGood_mapSet (m : PositionMap) (k : string) (v : Position) :
  allGood good m -> good v -> allGood good (mapSet m k v).
Proof.
  intros A G p I. apply mapSet_values in I. destruct I as [-> | I]; auto.
Qed.

Lemma good_applyTrade (position : Position) (t : Trade) :
  ok t -> good position -> good (applyTrade position t).
Proof.
  intros O G. unfold applyTrade.
  pose proof (good_assignments position t O G) as F.
  induction (assignments position t) as [| p l IH]; cbn [last]; [exact G |].
  inversion F as [| ? ? Gp Fl]; subst.
  destruct l as [| p' l']; [exact Gp | apply IH; exact Fl].
Qed.

Lemma allGood_tradeStates (m : PositionMap) (t : Trade) :
  ok t -> allGood good m ->
  Forall (allGood good) (tradeStates m t) /\ allGood good (processTrade m t).
Proof.
  intros O A. unfold tradeStates, processTrade.
  set (m' := match mapGet m (symbol t) with
             | Some _ => m
             | None => mapSet m (symbol t) (newPosition (symbol t))
             end).
  assert (A' : allGood good m').
  { unfold m'. destruct (mapGet m (symbol t)); [exact A |].
    apply allGood_mapSet; [exact A | apply good_new]. }
  destruct (mapGet m' (symbol t)) as [position |] eqn:E.
  - assert (G : good position) by (apply A'; eapply mapGet_In; exact E).
    split.
    + constructor; [exact A' |].
      apply Forall_map.
      eapply Forall_impl; [| apply (good_assignments position t O G)].
      intros p Gp. apply allGood_mapSet; assumption.
    + apply allGood_mapSet; [exact A' | apply good_applyTrade; assumption].
  - split; [constructor; [exact A' | constructor] | exact A'].
Qed.

Lemma allGood_runStates (trades : list Trade) :
  forall m, Forall ok trades -> allGood good m ->
            Forall (allGood good) (runStates m trades) /\
            allGood good (fold_left processTrade trades m).
Proof.
  induction trades as [| t rest IH]; intros m F A; cbn [runStates fold_left].
  - split; [constructor | exact A].
  - inversion F as [| ? ? Ot Fr]; subst.
    destruct (allGood_tradeStates m t Ot A) as [S P].
    destruct (IH (processTrade m t) Fr P) as [S' P'].
    split; [apply Forall_app; split; assumption | exact P'].
Qed.

End RunInvariant.

Lemma add_nonneg (a b : number) :
  ltb a zero = false -> ltb b zero = false -> ltb (a + b)%num zero = false.
Proof.
  destruct a as [| | | x], b as [| | | y]; unfold ltb, add, fin, zero;
    intros Hx Hy; try reflexivity; try discriminate.
  rewrite Qltb_ge in *. rewrite Qred_correct. lra.
Qed.

(** Selling the clamped quantity leaves a quantity that is not negative. *)
Lemma sub_min_nonneg (held asked : number) :
  ltb held zero = false ->
  gtb (Math_min asked held) zero = true ->
  ltb (held - Math_min asked held)%num zero = false.
Proof.
  destruct held as [| | | x], asked as [| | | y];
    unfold gtb, Math_min, ltb, sub, fin, zero;
    try (intros; reflexivity); try (intros; discriminate).
  - intros Hx _. rewrite Qltb_ge in *. rewrite Qred_correct. lra.
  - intros Hx. rewrite Qltb_ge in Hx.
    destruct (Qltb x y) eqn:L; intros _; rewrite Qltb_ge, Qred_correct.
    + lra.
    + apply Qltb_ge in L. lra.
Qed.

Lemma nonNegative_assignments (position : Position) (t : Trade) :
  (side t = BUY -> ltb (quantity t) zero = false) ->
  nonNegative position ->
  Forall nonNegative (assignments position t).
Proof.
  intros Ok G. unfold assignments, nonNegative in *.
  destruct (side t) eqn:Sd; try constructor.
  - exact G.
  - constructor; [exact G |]. constructor; [| constructor].
    cbn [setPQuantity p_quantity]. apply add_nonneg; [exact G | apply Ok; reflexivity].
  - destruct (gtb (Math_min (quantity t) (p_quantity position)) zero) eqn:Pos;
      [| constructor].
    assert (N : ltb (p_quantity position - Math_min (quantity t) (p_quantity position))%num
                    zero = false)
      by (apply sub_min_nonneg; assumption).
    cbn [setPQuantity setTotalCost setAvgBuyPrice p_quantity].
    destruct (gtb (p_quantity position - Math_min (quantity t) (p_quantity position))%num zero);
      repeat constructor; exact N.
Qed.

Section Positions.

Variable localeCompare : string -> string -> Z.
Variable parseISO : string -> Date.

Lemma Forall_sort {A : Type} (cmp : A -> A -> number) (P : A -> Prop) (l : list A) :
  Forall P l -> Forall P (sort cmp l).
Proof.
  rewrite !Forall_forall. intros F x I. apply F. apply (sort_In cmp). exact I.
Qed.

End Positions.

Lemma div_Fin (x y : Q) : ~ (y == 0)%Q -> (Fin x / Fin y)%num = Fin (Qred (x / y)).
Proof.
  intro N. unfold div. destruct (Qeq_bool y 0) eqn:E; [| reflexivity].
  apply Qeq_bool_iff in E. contradiction.
Qed.

(** A property of positions that holds of a new position and is kept by
    every completed update holds after every trade. *)
Section FoldInvariant.

Variable good : Position -> Prop.
Variable ok : Trade -> Prop.
Hypothesis good_new : forall symbol, good (newPosition symbol).
Hypothesis good_apply :
  forall position t, ok t -> good position -> good (applyTrade position t).

Lemma allGood_processTrade (m : PositionMap) (t : Trade) :
  ok t -> allGood good m -> allGood good (processTrade m t).
Proof.
  intros O A. unfold processTrade.
  set (m' := match mapGet m (symbol t) with
             | Some _ => m
             | None => mapSet m (symbol t) (newPosition (symbol t))
             end).
  assert (A' : allGood good m').
  { unfold m'. destruct (mapGet m (symbol t)); [exact A |].
    intros p I. apply mapSet_values in I. destruct I as [-> | I]; auto. }
  destruct (mapGet m' (symbol t)) as [position |] eqn:E; [| exact A'].
  intros p I. apply mapSet_values in I. destruct I as [-> | I]; [| auto].
  apply good_apply; [exact O |]. apply A'. eapply mapGet_In. exact E.
Qed.

Lemma allGood_fold (trades : list Trade) :
  forall m, Forall ok trades -> allGood good m ->
            allGood good (fold_left processTrade trades m).
Proof.
  induction trades as [| t rest IH]; intros m F A; cbn [fold_left]; [exact A |].
  inversion F as [| ? ? Ot Fr]; subst.
  apply IH; [exact Fr | apply allGood_processTrade; assumption].
Qed.

End FoldInvariant.

Lemma mapSet_mapGet (m : PositionMap) (k : string) (v : Position) :
  mapGet m k = Some v -> mapSet m k v = m.
Proof.
  induction m as [| [k' v'] m IH]; cbn [mapGet mapSet]; [discriminate |].
  destruct (String.eqb k' k) eqn:E.
  - intro H. injection H as ->. reflexivity.
  - intro H. rewrite (IH H). reflexivity.
Qed.

Lemma processTrade_held (positions : PositionMap) (t : Trade) (position : Position) :
  mapGet positions (symbol t) = Some position ->
  processTrade positions t = mapSet positions (symbol t) (applyTrade position t).
Proof. intro G. unfold processTrade. rewrite G, G. reflexivity. Qed.

Lemma processTrade_new (positions : PositionMap) (t : Trade) :
  mapGet positions (symbol t) = None ->
  processTrade positions t
  = mapSet (mapSet positions (symbol t) (newPosition (symbol t))) (symbol t)
      (applyTrade (newPosition (symbol t)) t).
Proof. intro G. unfold processTrade. rewrite G, mapGet_mapSet_same. reflexivity. Qed.

Lemma Math_min_zero_r (a : number) :
  gtb (Math_min a zero) zero = false.
Proof.
  destruct a as [| | | x]; try reflexivity.
  unfold Math_min, ltb, zero. destruct (Qltb 0 x) eqn:L; [reflexivity |].
  unfold gtb, ltb. exact L.
Qed.

Lemma applyTrade_sell_skip (position : Position) (t : Trade) :
  side t = SELL ->
  gtb (Math_min (quantity t) (p_quantity position)) zero = false ->
  applyTrade position t = position.
Proof.
  intros Sd G. unfold applyTrade, assignments. rewrite Sd, G. reflexivity.
Qed.

Lemma applyTrade_sell_quantity (position : Position) (t : Trade) :
  side t = SELL ->
  gtb (Math_min (quantity t) (p_quantity position)) zero = true ->
  p_quantity (applyTrade position t)
  = (p_quantity position - Math_min (quantity t) (p_quantity position))%num.
Proof.
  intros Sd G. unfold applyTrade, assignments. rewrite Sd, G.
  cbn [setPQuantity setTotalCost setAvgBuyPrice p_quantity].
  destruct (gtb (p_quantity position - Math_min (quantity t) (p_quantity position))%num zero);
    reflexivity.
Qed.

Lemma Math_min_oversell (asked held : number) :
  ltb held asked = true -> Math_min asked held = held.
Proof.
  destruct asked as [| | | y], held as [| | | x]; cbn; try discriminate; try reflexivity.
  unfold Math_min, ltb. intros ->. reflexivity.
Qed.

Section Clamp.

Variable localeCompare : string -> string -> Z.
Variable parseISO : string -> Date.

(** C6: a SELL of a symbol that is held takes
    [min(record.quantity, position.quantity)] from the position, which is the
    whole quantity held when the record asks for more; when that is not
    positive the map is left as it is, with no error; a SELL of a symbol that
    is not held only creates its position, with the quantity 0.  With BUY
    quantities that are not negative, no position has a negative quantity in
    any content the map goes through, nor in the map at the end, and the
    positions returned have a positive quantity. *)
Theorem calculatePositions_oversell_clamp (trades : list Trade) :
  (forall positions t position,
      side t = SELL ->
      mapGet positions (symbol t) = Some position ->
      let sellQuantity := Math_min (quantity t) (p_quantity position) in
      (ltb (p_quantity position) (quantity t) = true ->
       sellQuantity = p_quantity position) /\
      (gtb sellQuantity zero = true ->
       exists position',
         mapGet (processTrade positions t) (symbol t) = Some position' /\
         p_quantity position' = (p_quantity position - sellQuantity)%num) /\
      (gtb sellQuantity zero = false -> processTrade positions t = positions)) /\
  (forall positions t,
      side t = SELL ->
      mapGet positions (symbol t) = None ->
      processTrade positions t
      = mapSet positions (symbol t) (newPosition (symbol t))) /\
  (Forall (fun t => side t = BUY -> ltb (quantity t) zero = false) trades ->
   (forall m p, In m (observations localeCompare parseISO trades) ->
                In p (mapValues m) -> ltb (p_quantity p) zero = false) /\
   (forall p, In p (mapValues (accumulate localeCompare parseISO trades)) ->
              ltb (p_quantity p) zero = false)) /\
  (forall p, In p (calculatePositions localeCompare parseISO trades) ->
             gtb (p_quantity p) zero = true).
Proof.
  split; [| split; [| split]].
  - intros positions t position Sd G. cbv zeta.
    split; [apply Math_min_oversell |].
    rewrite (processTrade_held _ _ _ G). split; intro Pos.
    + exists (applyTrade position t).
      split; [apply mapGet_mapSet_same | apply applyTrade_sell_quantity; assumption].
    + rewrite (applyTrade_sell_skip _ _ Sd Pos). apply mapSet_mapGet. exact G.
  - intros positions t Sd G. rewrite (processTrade_new _ _ G).
    rewrite applyTrade_sell_skip; [| exact Sd | apply Math_min_zero_r].
    apply mapSet_mapGet. apply mapGet_mapSet_same.
  - intro F.
    destruct (allGood_runStates nonNegative
                (fun t => side t = BUY -> ltb (quantity t) zero = false)
                (fun symbol => eq_refl) nonNegative_assignments
                (sort (compareTrades localeCompare parseISO) trades) [])
      as [S P].
    + apply Forall_sort. exact F.
    + intros p [].
    + split.
      * intros m p [<- | I] Ip; [destruct Ip |].
        rewrite Forall_forall in S. exact (S m I p Ip).
      * exact P.
  - intros p I. unfold calculatePositions in I. apply filter_In in I. apply I.
Qed.

End Clamp.

(** 150 shares held and a SELL of 200: the 150 are sold and 0 remain. *)
Lemma calculatePositions_oversell_clamp_witness :
  exists position',
    mapGet (processTrade heldPositions (trade "KO" SELL 200 30 "7/26/2025"))
           "KO"%string = Some position' /\
    p_quantity position' = zero.
Proof.
  destruct (calculatePositions_oversell_clamp codeUnitCompare noISO overSellPosition)
    as (Clamp & _).
  destruct (Clamp heldPositions (trade "KO" SELL 200 30 "7/26/2025") heldPosition)
    as (Min & Take & _); [reflexivity | reflexivity |].
  cbv zeta in Min, Take.
  destruct Take as (position' & G & Q).
  - rewrite Min; reflexivity.
  - exists position'. split; [exact G |]. rewrite Q, Min; reflexivity.
Defined.

Lemma recomputed_applyTrade (position : Position) (t : Trade) :
  recomputed position -> recomputed (applyTrade position t).
Proof.
  intro R. unfold applyTrade, assignments.
  destruct (side t); try exact R.
  - cbn [last]. unfold recomputed.
    cbn [setPQuantity setTotalCost setAvgBuyPrice p_quantity avgBuyPrice totalCost].
    destruct (gtb (p_quantity position + quantity t)%num zero); reflexivity.
  - destruct (gtb (Math_min (quantity t) (p_quantity position)) zero); [| exact R].
    cbn [setPQuantity setTotalCost setAvgBuyPrice p_quantity avgBuyPrice totalCost].
    destruct (gtb (p_quantity position - Math_min (quantity t) (p_quantity position))%num
                  zero) eqn:G;
      cbn [last]; unfold recomputed;
      cbn [setPQuantity setTotalCost setAvgBuyPrice p_quantity avgBuyPrice totalCost];
      rewrite G; reflexivity.
Qed.

Section Cost.

Variable localeCompare : string -> string -> Z.
Variable parseISO : string -> Date.

(** C7, amended: every position returned has a positive quantity and the
    average price [totalCost / quantity], as the quotient was computed; after
    any number of completed updates every position of the map has the average
    price [totalCost / quantity] when its quantity is positive and 0
    otherwise; the positions returned are those with a positive quantity. *)
Theorem calculatePositions_cost_invariant (trades : list Trade) :
  (forall p, In p (calculatePositions localeCompare parseISO trades) ->
             gtb (p_quantity p) zero = true /\
             avgBuyPrice p = (totalCost p / p_quantity p)%num) /\
  (forall done rest p,
      sort (compareTrades localeCompare parseISO) trades = done ++ rest ->
      In p (mapValues (fold_left processTrade done [])) ->
      recomputed p) /\
  (forall p, In p (mapValues (accumulate localeCompare parseISO trades)) ->
             gtb (p_quantity p) zero = true ->
             In p (calculatePositions localeCompare parseISO trades)).
Proof.
  assert (Prefix : forall done p,
             In p (mapValues (fold_left processTrade done [])) -> recomputed p).
  { intros done p I.
    apply (allGood_fold recomputed (fun _ => True) (fun symbol => eq_refl)
             (fun position t _ => recomputed_applyTrade position t) done []);
      [apply Forall_forall; intros; exact Logic.I | intros p0 [] | exact I]. }
  split; [| split].
  - intros p I. unfold calculatePositions in I. apply filter_In in I.
    destruct I as [I Pq]. split; [exact Pq |].
    pose proof (Prefix _ p I) as R. unfold recomputed in R. rewrite Pq in R. exact R.
  - intros done rest p _ I. exact (Prefix done p I).
  - intros p I Pq. unfold calculatePositions. apply filter_In. split; assumption.
Qed.

End Cost.

(** BUY 100 @ 10, BUY 50 @ 20, SELL 30: the position of 120 shares that is
    returned; and the position held after the two BUY records. *)
Lemma calculatePositions_cost_invariant_witness :
  (exists p,
      calculatePositions codeUnitCompare noISO partialSell = [p] /\
      p_quantity p = ofZ 120 /\
      avgBuyPrice p = (totalCost p / p_quantity p)%num) /\
  recomputed heldPosition.
Proof.
  destruct (calculatePositions_cost_invariant codeUnitCompare noISO partialSell)
    as (R & U & _).
  split.
  - eexists. split; [vm_compute; reflexivity |].
    split; [reflexivity |]. apply R. vm_compute. left. reflexivity.
  - apply (U [trade "KO" BUY 100 10 "7/24/2025"; trade "KO" BUY 50 20 "7/25/2025"]
             [trade "KO" SELL 30 30 "7/26/2025"]);
      [vm_compute; reflexivity | vm_compute; left; reflexivity].
Defined.

(** C7 as stated does not hold: a BUY row with an infinite amount is a
    record with an infinite price; its position is returned with an infinite
    total cost and average price, for which
    [totalCost - avgBuyPrice * quantity] is NaN and
    [abs(totalCost - avgBuyPrice * quantity) < epsilon] is false whatever
    [epsilon] is. *)
Theorem calculatePositions_infinite_cost :
  exists t p,
    parseCSVData [infiniteBuyRow] = Resolved [t] /\
    calculatePositions codeUnitCompare noISO [t] = [p] /\
    (totalCost p - avgBuyPrice p * p_quantity p)%num = NaN /\
    forall epsilon, costWithin epsilon p = false.
Proof.
  eexists. eexists. split; [vm_compute; reflexivity |].
  split; [vm_compute; reflexivity |].
  split; [reflexivity |]. intro epsilon. reflexivity.
Qed.

Lemma eqb_zero_not_gtb (a : number) : eqb a zero = true -> gtb a zero = false.
Proof.
  destruct a as [| | | q]; try discriminate.
  unfold eqb, gtb, ltb, zero. intro E. apply Qeq_bool_iff in E.
  apply Qltb_ge. lra.
Qed.

(** C8: a SELL that takes a positive quantity from a position leaves it
    with the quantity reduced by that much; when the new quantity is exactly
    0, [avgBuyPrice] and [totalCost] are set to the constant 0; when it is
    positive, [totalCost] is reduced by the cost of the shares sold and
    [avgBuyPrice] is recomputed as [totalCost / quantity]. *)
Theorem sell_resets_or_recomputes (positions : PositionMap) (t : Trade)
  (position : Position) :
  side t = SELL ->
  mapGet positions (symbol t) = Some position ->
  gtb (Math_min (quantity t) (p_quantity position)) zero = true ->
  let sellQuantity := Math_min (quantity t) (p_quantity position) in
  exists position',
    mapGet (processTrade positions t) (symbol t) = Some position' /\
    p_quantity position' = (p_quantity position - sellQuantity)%num /\
    (eqb (p_quantity position') zero = true ->
     avgBuyPrice position' = zero /\ totalCost position' = zero) /\
    (gtb (p_quantity position') zero = true ->
     totalCost position'
     = (totalCost position - avgBuyPrice position * sellQuantity)%num /\
     avgBuyPrice position' = (totalCost position' / p_quantity position')%num).
Proof.
  intros Sd G Pos. cbv zeta.
  exists (applyTrade position t). split.
  - unfold processTrade. rewrite G, G. apply mapGet_mapSet_same.
  - unfold applyTrade, assignments. rewrite Sd, Pos.
    cbn [setPQuantity setTotalCost setAvgBuyPrice totalCost avgBuyPrice p_quantity].
    destruct (gtb (p_quantity position - Math_min (quantity t) (p_quantity position))%num
                  zero) eqn:Pq;
      cbn [last setPQuantity setTotalCost setAvgBuyPrice totalCost avgBuyPrice p_quantity].
    + split; [reflexivity |]. split.
      * intro E. apply eqb_zero_not_gtb in E. congruence.
      * intros _. split; reflexivity.
    + split; [reflexivity |]. split.
      * intros _. split; reflexivity.
      * intro E. congruence.
Qed.

Lemma sell_resets_or_recomputes_witness :
  exists position',
    mapGet (processTrade heldPositions (trade "KO" SELL 150 30 "7/26/2025"))
           "KO"%string = Some position' /\
    avgBuyPrice position' = zero /\ totalCost position' = zero.
Proof.
  destruct (sell_resets_or_recomputes heldPositions
              (trade "KO" SELL 150 30 "7/26/2025")
              (mkPosition "KO" (ofZ 150) (fin (40 # 3)) (ofZ 2000)
                          (Some zero) (Some zero) (Some zero) (Some zero)))
    as (position' & G & Q & Reset & _).
  - reflexivity.
  - reflexivity.
  - reflexivity.
  - exists position'. split; [exact G |]. apply Reset. rewrite Q. reflexivity.
Defined.


(** ** Further properties of the FIFO matcher *)

Lemma shrinks_refl (h : store) : shrinks h h.
Proof. intros r x E. exists x. split; [exact E | split; [apply Qle_refl | auto]]. Qed.

Lemma shrinks_trans (h1 h2 h3 : store) :
  shrinks h1 h2 -> shrinks h2 h3 -> shrinks h1 h3.
Proof.
  intros S12 S23 r x E.
  destruct (S12 r x E) as (x2 & E2 & L2 & N2).
  destruct (S23 r x2 E2) as (x3 & E3 & L3 & N3).
  exists x3. split; [exact E3 |]. split; [lra | auto].
Qed.

(** What one step of the scan takes from a lot of positive quantity. *)
Lemma Math_min_lot (remaining : number) (x : Q) :
  gtb remaining zero = true -> (0 < x)%Q ->
  exists m, Math_min remaining (Fin x) = Fin m /\ (0 < m)%Q /\ (m <= x)%Q.
Proof.
  intros Pr Px. apply gtb_zero_inv in Pr. destruct Pr as [-> | (q & -> & Pq)].
  - exists x. split; [reflexivity | split; [exact Px | apply Qle_refl]].
  - unfold Math_min, ltb. destruct (Qltb x q) eqn:L.
    + exists x. split; [reflexivity | split; [exact Px | apply Qle_refl]].
    + apply Qltb_ge in L. exists q. split; [reflexivity | split; assumption].
Qed.

Lemma matchLots_shrinks (sell : ref) (buys : list ref) :
  forall h remaining matched,
    shrinks h (fst (fst (matchLots h sell buys remaining matched))).
Proof.
  induction buys as [| b rest IH]; intros h remaining matched; cbn [matchLots].
  - apply shrinks_refl.
  - destruct (gtb remaining zero) eqn:Pr; [| apply shrinks_refl].
    destruct (String.eqb (symbol (h b)) (symbol (h sell))
              && gtb (quantity (h b)) zero) eqn:M; [| apply IH].
    apply andb_prop in M. destruct M as [_ Pos].
    eapply shrinks_trans; [| apply IH].
    intros r x E. destruct (Nat.eq_dec r b) as [-> | N].
    + rewrite update_same. cbn [quantity setQuantity]. rewrite E in Pos |- *.
      apply gtb_zero_Fin in Pos.
      destruct (Math_min_lot remaining x Pr Pos) as (m & -> & Pm & Lm).
      exists (Qred (x - m)). split; [reflexivity |].
      rewrite Qred_correct. split; [lra | intros _; lra].
    + rewrite (update_other _ _ _ _ N). exists x.
      split; [exact E | split; [apply Qle_refl | auto]].
Qed.

(** The scan for a sell leaves the records of every other symbol alone. *)
Lemma matchLots_other_symbol (sell : ref) (buys : list ref) :
  forall h remaining matched r,
    symbol (h r) <> symbol (h sell) ->
    fst (fst (matchLots h sell buys remaining matched)) r = h r.
Proof.
  induction buys as [| b rest IH]; intros h remaining matched r N; cbn [matchLots].
  - reflexivity.
  - destruct (gtb remaining zero); [| reflexivity].
    destruct (String.eqb (symbol (h b)) (symbol (h sell))
              && gtb (quantity (h b)) zero) eqn:M; [| apply IH; exact N].
    apply andb_prop in M. destruct M as [Sy _]. apply String.eqb_eq in Sy.
    set (h1 := update h b _).
    assert (S1 : forall x, symbol (h1 x) = symbol (h x)).
    { intro x. unfold h1, update. destruct (Nat.eqb_spec x b) as [-> | _]; reflexivity. }
    rewrite IH by (rewrite !S1; exact N).
    unfold h1. apply update_other. intros ->. apply N. exact Sy.
Qed.

Section Lots.

Variable localeCompare : string -> string -> Z.
Variable parseISO : string -> Date.

Lemma matchSell_shrinks (h : store) (buys : list ref) (s : ref) :
  shrinks h (fst (matchSell parseISO h buys s)).
Proof. rewrite matchSell_store. apply matchLots_shrinks. Qed.

Lemma matchSells_shrinks (buys sells : list ref) :
  forall h, shrinks h (fst (matchSells parseISO h buys sells)).
Proof.
  induction sells as [| s rest IH]; intro h; cbn [matchSells].
  - apply shrinks_refl.
  - pose proof (matchSell_shrinks h buys s) as S1.
    destruct (matchSell parseISO h buys s) as [h1 ps]. cbn [fst] in S1.
    pose proof (IH h1) as S2.
    destruct (matchSells parseISO h1 buys rest) as [h2 pairs]. cbn [fst] in *.
    eapply shrinks_trans; eassumption.
Qed.

(** X1: the matcher only ever lowers the quantity of a record, and never
    below zero: a finite quantity is finite afterwards, not larger, and not
    negative if it was not negative. *)
Theorem calculateFIFOPairs_lots_shrink (h : store) (trades : list ref)
  (r : ref) (x : Q) :
  quantity (h r) = Fin x ->
  exists x',
    quantity (fst (calculateFIFOPairs localeCompare parseISO h trades) r) = Fin x' /\
    (x' <= x)%Q /\ ((0 <= x)%Q -> (0 <= x')%Q).
Proof. apply matchSells_shrinks. Qed.

Lemma matchSells_other_symbol (buys sells : list ref) :
  forall h r,
    (forall s, In s sells -> symbol (h s) <> symbol (h r)) ->
    fst (matchSells parseISO h buys sells) r = h r.
Proof.
  induction sells as [| s rest IH]; intros h r N; cbn [matchSells]; [reflexivity |].
  pose proof (matchSell_store parseISO h buys s) as E1.
  pose proof (matchSell_frames parseISO h buys s) as F1.
  destruct (matchSell parseISO h buys s) as [h1 ps]. cbn [fst] in E1, F1.
  specialize (IH h1 r).
  destruct (matchSells parseISO h1 buys rest) as [h2 pairs]. cbn [fst] in *.
  rewrite IH.
  - rewrite E1. apply matchLots_other_symbol.
    intro E. apply (N s (or_introl eq_refl)). symmetry. exact E.
  - intros s0 I. rewrite !(frames_symbol _ _ _ _ F1). apply N. right. exact I.
Qed.

(** X2: sells consume lots of their own symbol only: a record whose symbol
    is the symbol of no SELL record of the input is returned as it was. *)
Theorem calculateFIFOPairs_other_symbols (h : store) (trades : list ref) (r : ref) :
  (forall s, In s trades -> side (h s) <> BUY -> symbol (h s) <> symbol (h r)) ->
  fst (calculateFIFOPairs localeCompare parseISO h trades) r = h r.
Proof.
  intro N. apply matchSells_other_symbol.
  intros s I. apply sellTrades_In in I. destruct I as [It Ns]. exact (N s It Ns).
Qed.

End Lots.


Lemma calculateFIFOPairs_lots_shrink_witness :
  exists x',
    quantity (fst (calculateFIFOPairs codeUnitCompare noISO (storeOf singleLot)
                     [0; 1]%nat) 0%nat) = Fin x' /\
    (x' <= 100)%Q /\ ((0 <= 100)%Q -> (0 <= x')%Q).
Proof.
  apply (calculateFIFOPairs_lots_shrink codeUnitCompare noISO (storeOf singleLot)
           [0; 1]%nat 0%nat 100%Q).
  reflexivity.
Defined.

Lemma calculateFIFOPairs_other_symbols_witness :
  fst (calculateFIFOPairs codeUnitCompare noISO (storeOf twoSymbols)
         [0; 1; 2]%nat) 1%nat
  = storeOf twoSymbols 1%nat.
Proof.
  apply (calculateFIFOPairs_other_symbols codeUnitCompare noISO (storeOf twoSymbols)
           [0; 1; 2]%nat 1%nat).
  intros s [<- | [<- | [<- | []]]] N; cbn in *; try congruence; discriminate.
Defined.

(** ** Sorting and splitting lose nothing *)

Lemma filter_split_Permutation {A : Type} (f : A -> bool) (l : list A) :
  Permutation (filter f l ++ filter (fun x => negb (f x)) l) l.
Proof.
  induction l as [| x l IH]; cbn [filter app]; [apply perm_nil |].
  destruct (f x); cbn [negb app].
  - apply perm_skip, IH.
  - eapply perm_trans; [apply Permutation_sym, Permutation_middle |].
    apply perm_skip, IH.
Qed.

(** X3: sorting keeps every trade exactly once, and so does the split into
    BUY lots and sells: the lots followed by the sells are a permutation of
    the caller's sequence. *)
Theorem buyTrades_sellTrades_Permutation (localeCompare : string -> string -> Z)
  (parseISO : string -> Date) (h : store) (trades : list ref) :
  Permutation (sortedTrades localeCompare parseISO h trades) trades /\
  Permutation (buyTrades localeCompare parseISO h trades
               ++ sellTrades localeCompare parseISO h trades) trades /\
  Permutation (sort (compareTrades localeCompare parseISO) (map h trades))
              (map h trades).
Proof.
  split; [apply sort_Permutation |]. split; [| apply sort_Permutation].
  unfold buyTrades, sellTrades.
  eapply perm_trans; [apply filter_split_Permutation | apply sort_Permutation].
Qed.


(** ** Further properties of the normalizer *)

Section NormalizerRecords.

Local Open Scope string_scope.

(** Everything the guards of [processRow] have established when a trade is
    pushed. *)
Lemma processRow_Some_guards (index : nat) (r : Row) (t : Trade) :
  processRow index r = Some t ->
  trim (valueOf (Instrument r)) <> "" /\
  gtb (quantityOf r) zero = true /\
  neqb (amountOf r) zero = true /\
  trim (valueOf (ActivityDate r)) <> "".
Proof.
  unfold processRow.
  destruct (falsy (Instrument r) || falsy (TransCode r)
            || String.eqb (trim (valueOf (Instrument r))) ""); [discriminate |].
  destruct (String.eqb_spec (trim (valueOf (Instrument r))) ""); [discriminate |].
  destruct (sideOfTransCode (toUpperCase (valueOf (TransCode r)))) as [sd |];
    [| discriminate].
  destruct (negb (Side_eqb sd BUY) && negb (Side_eqb sd SELL)); [discriminate |].
  destruct (isNaN (quantityOf r) || leb (quantityOf r) zero); [discriminate |].
  destruct (neqb (amountOf r) zero) eqn:A; [| discriminate].
  destruct (gtb (quantityOf r) zero) eqn:Q; [| discriminate].
  cbn [andb].
  destruct (isNaN (priceOf sd (amountOf r) (quantityOf r))
            || leb (priceOf sd (amountOf r) (quantityOf r)) zero); [discriminate |].
  destruct (falsy (ActivityDate r)); [discriminate |]. cbn [orb].
  destruct (String.eqb_spec (trim (valueOf (ActivityDate r))) ""); [discriminate |].
  intros _. auto.
Qed.

(** A positive quotient has a finite divisor when the divisor is positive. *)
Lemma div_positive_finite (a q : number) :
  gtb q zero = true -> gtb (a / q)%num zero = true -> exists x, q = Fin x /\ (0 < x)%Q.
Proof.
  intros Pq Pd. apply gtb_zero_inv in Pq. destruct Pq as [-> | (x & -> & Px)].
  - destruct a; discriminate Pd.
  - exists x. auto.
Qed.

Lemma Math_abs_positive (x : Q) : (0 < x)%Q -> Math_abs (Fin x) = Fin x.
Proof.
  intro P. unfold Math_abs. rewrite (proj2 (Qltb_ge x 0)) by lra. reflexivity.
Qed.

Lemma processRows_In (data : list Row) :
  forall index t,
    In t (processRows index data) ->
    exists j r, (index <= j)%nat /\ In r data /\ processRow j r = Some t.
Proof.
  induction data as [| r rest IH]; intros index t; cbn [processRows]; [intros [] |].
  destruct (processRow index r) as [t0 |] eqn:E.
  - intros [<- | I].
    + exists index, r. split; [lia |]. split; [left; reflexivity | exact E].
    + destruct (IH _ _ I) as (j & r' & L & Ir & P).
      exists j, r'. split; [lia |]. split; [right; exact Ir | exact P].
  - intro I. destruct (IH _ _ I) as (j & r' & L & Ir & P).
    exists j, r'. split; [lia |]. split; [right; exact Ir | exact P].
Qed.

Lemma parseCSVData_Resolved (data : list Row) (trades : list Trade) :
  parseCSVData data = Resolved trades -> trades = processRows 0 data.
Proof.
  unfold parseCSVData. destruct data as [| r rest]; [discriminate |].
  destruct (processRows 0 (r :: rest)); [discriminate |].
  intro E. injection E as <-. reflexivity.
Qed.

(** X4: every record that [parseCSVData] resolves with is a BUY or a SELL
    with a finite positive quantity, a positive price, a non-empty symbol and
    date and fees 0; unless its price is infinite it satisfies the invariant
    of the data model ([admitted]). *)
Theorem parseCSVData_records_valid (data : list Row) (trades : list Trade) (t : Trade) :
  parseCSVData data = Resolved trades ->
  In t trades ->
  (side t = BUY \/ side t = SELL) /\
  isFinite (quantity t) = true /\ gtb (quantity t) zero = true /\
  gtb (price t) zero = true /\
  symbol t <> "" /\ date t <> "" /\ fees t = Some zero /\
  (isFinite (price t) = true -> admitted t = true).
Proof.
  intros E I. apply parseCSVData_Resolved in E. subst trades.
  apply processRows_In in I. destruct I as (j & r & _ & _ & P).
  destruct (processRow_Some_guards j r t P) as (Ni & Pq & _ & Nd).
  apply processRow_Some in P. destruct P as (sd & _ & B & Pp & ->).
  cbn [side quantity price symbol date fees].
  assert (Fq : exists x, quantityOf r = Fin x /\ (0 < x)%Q).
  { destruct B as [-> | ->]; cbn [priceOf] in Pp;
      exact (div_positive_finite _ _ Pq Pp). }
  destruct Fq as (x & Ex & Px). rewrite Ex in *. rewrite Math_abs_positive by exact Px.
  split; [exact B |]. split; [reflexivity |]. split; [exact Pq |].
  split; [exact Pp |]. split; [exact Ni |].
  split; [intro D; apply Nd; rewrite D; reflexivity |].
  split; [reflexivity |].
  intro Fp. unfold admitted. cbn [quantity price]. rewrite Pq, Pp, Fp. reflexivity.
Qed.

Lemma includes_app (c : ascii) (s1 s2 : string) :
  includes c (s1 ++ s2) = includes c s1 || includes c s2.
Proof.
  induction s1 as [| d s1 IH]; cbn [append includes]; [reflexivity |].
  rewrite IH. apply orb_assoc.
Qed.

Lemma afterLastDash_app (s d : string) :
  includes "-" d = false -> afterLastDash (s ++ "-" ++ d) = d.
Proof.
  intro N. induction s as [| c s IH].
  - cbn [append afterLastDash]. rewrite N. reflexivity.
  - change (String c s ++ "-" ++ d) with (String c (s ++ "-" ++ d)).
    cbn [afterLastDash]. rewrite includes_app.
    replace (includes "-" ("-" ++ d)) with true by reflexivity.
    rewrite orb_true_r. exact IH.
Qed.

Lemma string_of_uint_no_dash (d : Decimal.uint) :
  includes "-" (NilEmpty.string_of_uint d) = false.
Proof. induction d; cbn [NilEmpty.string_of_uint includes]; try exact IHd; reflexivity. Qed.

Lemma indexString_no_dash (n : nat) : includes "-" (indexString n) = false.
Proof. apply string_of_uint_no_dash. Qed.

Lemma indexString_inj (n m : nat) : indexString n = indexString m -> n = m.
Proof.
  unfold indexString. intro E.
  apply (f_equal NilEmpty.uint_of_string) in E. rewrite !NilEmpty.usu in E.
  injection E as E. apply (f_equal Nat.of_uint) in E.
  rewrite !Unsigned.of_to in E. exact E.
Qed.

Lemma id_index_inj (s1 s2 : string) (n m : nat) :
  s1 ++ "-" ++ indexString n = s2 ++ "-" ++ indexString m -> n = m.
Proof.
  intro E. apply (f_equal afterLastDash) in E.
  rewrite !afterLastDash_app in E by apply indexString_no_dash.
  apply indexString_inj. exact E.
Qed.

Lemma processRow_id (index : nat) (r : Row) (t : Trade) :
  processRow index r = Some t ->
  id t = valueOf (Instrument r) ++ "-" ++ indexString index.
Proof.
  intro P. apply processRow_Some in P. destruct P as (sd & _ & _ & _ & ->).
  reflexivity.
Qed.

Lemma processRows_NoDup (data : list Row) :
  forall index, NoDup (map id (processRows index data)).
Proof.
  induction data as [| r rest IH]; intro index; cbn [processRows map];
    [constructor |].
  destruct (processRow index r) as [t |] eqn:E; [| apply IH].
  cbn [map]. constructor; [| apply IH].
  intro I. apply in_map_iff in I. destruct I as (t' & Eid & I).
  apply processRows_In in I. destruct I as (j & r' & L & _ & P).
  rewrite (processRow_id _ _ _ E), (processRow_id _ _ _ P) in Eid.
  apply id_index_inj in Eid. lia.
Qed.

(** X5: the ids of the records of one batch are pairwise distinct. *)
Theorem parseCSVData_ids_unique (data : list Row) (trades : list Trade) :
  parseCSVData data = Resolved trades -> NoDup (map id trades).
Proof.
  intro E. apply parseCSVData_Resolved in E. subst trades. apply processRows_NoDup.
Qed.

End NormalizerRecords.

Lemma parseCSVData_records_valid_witness :
  Forall (fun t => gtb (price t) zero = true /\ admitted t = true)
         (validTrades [buyRow; dividendRow; sellRow]).
Proof.
  apply Forall_forall. intros t I.
  destruct (parseCSVData_records_valid [buyRow; dividendRow; sellRow]
              (validTrades [buyRow; dividendRow; sellRow]) t)
    as (_ & _ & _ & Pp & _ & _ & _ & Ad).
  - vm_compute. reflexivity.
  - exact I.
  - split; [exact Pp |]. apply Ad.
    destruct I as [<- | [<- | []]]; reflexivity.
Defined.

Lemma parseCSVData_ids_unique_witness :
  NoDup (map id (validTrades [buyRow; dividendRow; sellRow])).
Proof.
  apply (parseCSVData_ids_unique [buyRow; dividendRow; sellRow]).
  vm_compute. reflexivity.
Defined.


(** ** Further properties of the position accumulator *)

Lemma mapSet_keys_present (m : PositionMap) (k : string) (v v0 : Position) :
  mapGet m k = Some v0 -> map fst (mapSet m k v) = map fst m.
Proof.
  induction m as [| [k' v'] m IH]; cbn [mapGet mapSet map fst]; [discriminate |].
  destruct (String.eqb k' k) eqn:E; cbn [map fst]; [reflexivity |].
  intro G. rewrite (IH G). reflexivity.
Qed.

Lemma mapSet_keys_absent (m : PositionMap) (k : string) (v : Position) :
  mapGet m k = None ->
  map fst (mapSet m k v) = map fst m ++ [k] /\ ~ In k (map fst m).
Proof.
  induction m as [| [k' v'] m IH]; cbn [mapGet mapSet map fst app In].
  - intros _. split; [reflexivity | tauto].
  - destruct (String.eqb_spec k' k) as [-> | N]; [discriminate |].
    intro G. destruct (IH G) as [E NI]. cbn [map fst]. rewrite E.
    split; [reflexivity | intros [C | C]; [exact (N C) | exact (NI C)]].
Qed.

Lemma mapSet_In (m : PositionMap) (k k' : string) (v v' : Position) :
  In (k', v') (mapSet m k v) -> (k' = k /\ v' = v) \/ In (k', v') m.
Proof.
  induction m as [| [k0 v0] m IH]; cbn [mapSet In].
  - intros [E | []]. injection E as <- <-. left. split; reflexivity.
  - destruct (String.eqb_spec k0 k) as [-> | N]; cbn [In].
    + intros [E | I]; [injection E as <- <-; left; split; reflexivity | right; right; exact I].
    + intros [E | I]; [right; left; exact E |].
      destruct (IH I) as [C | C]; [left; exact C | right; right; exact C].
Qed.

Lemma mapGet_Some_In (m : PositionMap) (k : string) (v : Position) :
  mapGet m k = Some v -> In (k, v) m.
Proof.
  induction m as [| [k0 v0] m IH]; cbn [mapGet In]; [discriminate |].
  destruct (String.eqb_spec k0 k) as [-> | N].
  - intro E. injection E as <-. left. reflexivity.
  - intro G. right. exact (IH G).
Qed.

Lemma assignments_symbol (position : Position) (t : Trade) :
  Forall (fun p => p_symbol p = p_symbol position) (assignments position t).
Proof.
  unfold assignments. destruct (side t); try constructor.
  - reflexivity.
  - repeat constructor.
  - destruct (gtb (Math_min (quantity t) (p_quantity position)) zero); [| constructor].
    cbn [setPQuantity setTotalCost setAvgBuyPrice p_quantity].
    destruct (gtb _ zero); repeat constructor.
Qed.

Lemma applyTrade_symbol (position : Position) (t : Trade) :
  p_symbol (applyTrade position t) = p_symbol position.
Proof.
  unfold applyTrade. pose proof (assignments_symbol position t) as F.
  induction (assignments position t) as [| p l IH]; cbn [last]; [reflexivity |].
  inversion F as [| ? ? Hp Fl]; subst.
  destruct l as [| p' l']; [exact Hp | apply IH; exact Fl].
Qed.

Lemma keyed_mapSet (m : PositionMap) (k : string) (v : Position) :
  keyed m -> p_symbol v = k -> keyed (mapSet m k v).
Proof.
  intros [ND Sy] Ev. split.
  - destruct (mapGet m k) as [v0 |] eqn:G.
    + rewrite (mapSet_keys_present m k v v0 G). exact ND.
    + destruct (mapSet_keys_absent m k v G) as [E NI]. rewrite E.
      apply (Permutation_NoDup (l := k :: map fst m)).
      * apply Permutation_cons_append.
      * constructor; assumption.
  - intros k' v' I. apply mapSet_In in I. destruct I as [[-> ->] | I]; [exact Ev | auto].
Qed.

Lemma keyed_processTrade (m : PositionMap) (t : Trade) :
  keyed m -> keyed (processTrade m t).
Proof.
  intro K. unfold processTrade.
  set (m' := match mapGet m (symbol t) with
             | Some _ => m
             | None => mapSet m (symbol t) (newPosition (symbol t))
             end).
  assert (K' : keyed m').
  { unfold m'. destruct (mapGet m (symbol t)); [exact K |].
    apply keyed_mapSet; [exact K | reflexivity]. }
  destruct (mapGet m' (symbol t)) as [position |] eqn:G; [| exact K'].
  apply keyed_mapSet; [exact K' |].
  rewrite applyTrade_symbol. apply K'. apply mapGet_Some_In. exact G.
Qed.

Lemma keyed_fold (trades : list Trade) :
  forall m, keyed m -> keyed (fold_left processTrade trades m).
Proof.
  induction trades as [| t rest IH]; intros m K; cbn [fold_left]; [exact K |].
  apply IH, keyed_processTrade, K.
Qed.

Lemma keyed_symbols (m : PositionMap) :
  keyed m -> map p_symbol (mapValues m) = map fst m.
Proof.
  intros [_ Sy]. unfold mapValues. rewrite map_map.
  apply map_ext_in. intros [k v] I. cbn [fst snd]. apply Sy. exact I.
Qed.

(** The keys of the map are symbols of the trades processed. *)
Lemma processTrade_keys (m : PositionMap) (t : Trade) (k : string) :
  In k (map fst (processTrade m t)) -> k = symbol t \/ In k (map fst m).
Proof.
  unfold processTrade.
  set (m' := match mapGet m (symbol t) with
             | Some _ => m
             | None => mapSet m (symbol t) (newPosition (symbol t))
             end).
  assert (K' : In k (map fst m') -> k = symbol t \/ In k (map fst m)).
  { unfold m'. destruct (mapGet m (symbol t)) eqn:G; [auto |].
    destruct (mapSet_keys_absent m (symbol t) (newPosition (symbol t)) G) as [E _].
    rewrite E. intro I. apply in_app_or in I.
    destruct I as [I | [<- | []]]; auto. }
  destruct (mapGet m' (symbol t)) as [position |] eqn:G; [| exact K'].
  rewrite (mapSet_keys_present m' (symbol t) _ position G). exact K'.
Qed.

Lemma fold_keys (trades : list Trade) :
  forall m k,
    In k (map fst (fold_left processTrade trades m)) ->
    In k (map symbol trades) \/ In k (map fst m).
Proof.
  induction trades as [| t rest IH]; intros m k; cbn [fold_left map In]; [auto |].
  intro I. destruct (IH _ _ I) as [J | J]; [auto |].
  apply processTrade_keys in J. destruct J as [-> | J]; auto.
Qed.

Section OnePerSymbol.
Variable localeCompare : string -> string -> Z.
Variable parseISO : string -> Date.

(** X6: the positions returned have pairwise distinct symbols, one position
    per symbol at most, and each is the position of a symbol that occurs in
    the trades. *)
Theorem calculatePositions_one_per_symbol (trades : list Trade) :
  NoDup (map p_symbol (calculatePositions localeCompare parseISO trades)) /\
  (forall p, In p (calculatePositions localeCompare parseISO trades) ->
             exists t, In t trades /\ symbol t = p_symbol p).
Proof.
  assert (K : keyed (accumulate localeCompare parseISO trades)).
  { apply keyed_fold. split; [constructor | intros k v []]. }
  split.
  - unfold calculatePositions. apply NoDup_map_filter.
    rewrite (keyed_symbols _ K). apply K.
  - intros p I. unfold calculatePositions in I. apply filter_In in I.
    destruct I as [I _].
    assert (Ik : In (p_symbol p) (map fst (accumulate localeCompare parseISO trades))).
    { rewrite <- (keyed_symbols _ K). apply in_map. exact I. }
    apply fold_keys in Ik. destruct Ik as [Ik | []].
    apply in_map_iff in Ik. destruct Ik as (t & E & It).
    exists t. split; [| exact E]. apply (sort_In (compareTrades localeCompare parseISO)).
    exact It.
Qed.
End OnePerSymbol.


(** ** Market data and the loader *)

Lemma copyTrades_values (trades : list ref) :
  forall h next,
    Forall (fun r => (r < next)%nat) trades ->
    map (fst (fst (copyTrades h next trades))) (snd (copyTrades h next trades))
    = map h trades.
Proof.
  induction trades as [| t rest IH]; intros h next F; cbn [copyTrades].
  - reflexivity.
  - inversion F as [| ? ? Lt Fr]; subst.
    pose proof (copyTrades_spec rest (update h next (h t)) (S next)) as Sp.
    assert (Fr' : Forall (fun r => (r < S next)%nat) rest)
      by (eapply Forall_impl; [| exact Fr]; cbn beta; intros; lia).
    specialize (IH (update h next (h t)) (S next) Fr').
    destruct (copyTrades (update h next (h t)) (S next) rest) as [[h' next'] copies].
    cbn [fst snd map] in *. destruct Sp as (_ & U & _).
    rewrite U by lia. rewrite update_same. f_equal.
    rewrite IH. apply map_ext_in. intros r Ir.
    apply update_other. rewrite Forall_forall in Fr. specialize (Fr r Ir). lia.
Qed.

Section Loaded.
Variable localeCompare : string -> string -> Z.
Variable parseISO : string -> Date.

(** X14: in [handleDataLoaded] the positions are computed from the records
    as they were parsed: what the matcher consumes from its own copies does not
    reach the copies given to [calculatePositions]. *)
Theorem handleDataLoaded_positions (h : store) (next : ref) (parsedTrades : list ref) :
  Forall (fun r => (r < next)%nat) parsedTrades ->
  snd (handleDataLoaded localeCompare parseISO h next parsedTrades)
  = calculatePositions localeCompare parseISO (map h parsedTrades).
Proof.
  intro F. unfold handleDataLoaded.
  pose proof (copyTrades_spec parsedTrades h next) as S1.
  pose proof (copyTrades_values parsedTrades h next F) as V1.
  destruct (copyTrades h next parsedTrades) as [[h1 next1] tradesForFIFO].
  cbn [fst snd] in V1. destruct S1 as (L1 & U1 & A1).
  assert (F1 : Forall (fun r => (r < next1)%nat) parsedTrades)
    by (eapply Forall_impl; [| exact F]; cbn beta; intros; lia).
  pose proof (copyTrades_spec parsedTrades h1 next1) as S2.
  pose proof (copyTrades_values parsedTrades h1 next1 F1) as V2.
  destruct (copyTrades h1 next1 parsedTrades) as [[h2 next2] tradesForPositions].
  cbn [fst snd] in V2. destruct S2 as (L2 & U2 & A2).
  pose proof (calculateFIFOPairs_frames localeCompare parseISO h2 tradesForFIFO) as Fr.
  destruct (calculateFIFOPairs localeCompare parseISO h2 tradesForFIFO) as [h3 pairs].
  cbn [fst snd] in *. f_equal.
  transitivity (map h2 tradesForPositions).
  - apply map_ext_in. intros c Ic.
    destruct (Fr c) as (_ & O & _). apply O.
    rewrite buyTrades_In. intros [I _].
    rewrite Forall_forall in A1, A2. specialize (A1 c I). specialize (A2 c Ic). lia.
  - rewrite V2. apply map_ext_in. intros r Ir. apply U1.
    rewrite Forall_forall in F. exact (F r Ir).
Qed.
End Loaded.

Lemma updatePosition_core (live mock : option number) (position : Position) :
  p_symbol (updatePosition live mock position) = p_symbol position /\
  p_quantity (updatePosition live mock position) = p_quantity position /\
  avgBuyPrice (updatePosition live mock position) = avgBuyPrice position /\
  totalCost (updatePosition live mock position) = totalCost position.
Proof.
  unfold updatePosition.
  destruct (if usable live then live else mock) as [price |];
    [destruct (truthy price) |]; repeat split.
Qed.

(** X12: [updatePositionsWithMarketData] returns the positions in the same
    number and order with symbol, quantity, average price and total cost as
    they were, so the total cost of the summary is the same before and after;
    a position for which neither look-up gives a usable price (none, 0 or NaN)
    comes back with the four market fields set to 0. *)
Theorem updatePositionsWithMarketData_frame
  (getCurrentPrice getMockPrice : string -> option number)
  (positions : list Position) (tradePairs : list TradePair) (allTrades : list ref) :
  let updated := updatePositionsWithMarketData getCurrentPrice getMockPrice positions in
  map p_symbol updated = map p_symbol positions /\
  map p_quantity updated = map p_quantity positions /\
  map avgBuyPrice updated = map avgBuyPrice positions /\
  map totalCost updated = map totalCost positions /\
  Summary.totalCost (calculatePortfolioSummary updated tradePairs allTrades)
  = Summary.totalCost (calculatePortfolioSummary positions tradePairs allTrades) /\
  (forall position,
      In position positions ->
      usable (getCurrentPrice (p_symbol position)) = false ->
      usable (getMockPrice (p_symbol position)) = false ->
      In (withoutPrice position) updated).
Proof.
  cbv zeta. unfold updatePositionsWithMarketData.
  repeat split.
  1-4: rewrite map_map; apply map_ext; intro position; apply updatePosition_core.
  - unfold calculatePortfolioSummary. cbn [Summary.totalCost].
    generalize zero. induction positions as [| position rest IH]; intro acc;
      cbn [map fold_left]; [reflexivity |].
    rewrite IH. f_equal. f_equal. apply updatePosition_core.
  - intros position I L M. apply in_map_iff. exists position. split; [| exact I].
    unfold updatePosition. rewrite L.
    destruct (getMockPrice (p_symbol position)) as [price |]; [| reflexivity].
    cbn [usable] in M. rewrite M. reflexivity.
Qed.

Lemma updatePositionsWithMarketData_frame_witness :
  In (withoutPrice heldPosition)
     (updatePositionsWithMarketData (fun _ => None) (fun _ => Some zero)
        [heldPosition; otherPosition]).
Proof.
  apply (updatePositionsWithMarketData_frame (fun _ => None) (fun _ => Some zero)
           [heldPosition; otherPosition] [] []);
    [left; reflexivity | reflexivity | reflexivity].
Defined.

Lemma handleDataLoaded_positions_witness :
  snd (handleDataLoaded codeUnitCompare noISO (storeOf singleLot) 2%nat [0; 1]%nat)
  = calculatePositions codeUnitCompare noISO (map (storeOf singleLot) [0; 1]%nat).
Proof.
  apply (handleDataLoaded_positions codeUnitCompare noISO (storeOf singleLot)
           2%nat [0; 1]%nat).
  repeat constructor.
Defined.


(** ** The order of the sorted trades *)

Section Order.

Variable localeCompare : string -> string -> Z.
Variable parseISO : string -> Date.

Lemma gtb_ofZ (z : Z) : gtb (ofZ z) zero = true <-> 0 < z.
Proof.
  unfold gtb, ltb, ofZ, zero. rewrite Qltb_lt.
  unfold Qlt, inject_Z. cbn. lia.
Qed.

Lemma gtb_sub_ofZ (a b : Z) : gtb (ofZ a - ofZ b)%num zero = true <-> b < a.
Proof.
  change (ofZ a - ofZ b)%num with (Fin (Qred (inject_Z a - inject_Z b))).
  unfold gtb, ltb, zero. rewrite Qltb_lt, Qred_correct.
  unfold Qlt, Qminus, Qplus, Qopp, inject_Z. cbn. lia.
Qed.

Lemma neqb_ofZ (a b : Z) : neqb (ofZ a) (ofZ b) = true <-> a <> b.
Proof.
  unfold neqb, eqb, ofZ. rewrite negb_true_iff, <- not_true_iff_false.
  rewrite Qeq_bool_iff, inject_Z_injective. reflexivity.
Qed.

(** The comparator puts [t] after [u] exactly when [u] strictly precedes localeCompare parseISO. *)
Lemma compareTrades_gtb (t u : Trade) :
  sortable parseISO t -> sortable parseISO u ->
  gtb (compareTrades localeCompare parseISO t u) zero = false <-> precedes localeCompare parseISO t u.
Proof.
  intros [St Dt] [Su Du]. unfold compareTrades, precedes.
  destruct (String.eqb (symbol t) (symbol u)); cbn [negb].
  - destruct (parseDate parseISO (date t)) as [a |]; [| contradiction].
    destruct (parseDate parseISO (date u)) as [b |]; [| contradiction].
    cbn [getTime].
    destruct (neqb (ofZ a) (ofZ b)) eqn:N.
    + apply neqb_ofZ in N.
      destruct (gtb (ofZ a - ofZ b)%num zero) eqn:G.
      * apply gtb_sub_ofZ in G. split; [discriminate | intros [L | [E _]]; lia].
      * split; [intros _ | reflexivity]. left.
        assert (~ b < a) by (rewrite <- gtb_sub_ofZ; congruence). lia.
    + assert (E : a = b).
      { destruct (Z.eq_dec a b) as [E | E]; [exact E |].
        apply neqb_ofZ in E. congruence. }
      subst b.
      destruct St as [-> | ->], Su as [-> | ->]; cbn; split; intro H;
        try reflexivity; try discriminate H;
        try (right; split; [reflexivity | intros [? ?]; discriminate]).
      destruct H as [L | [_ C]]; [lia | exfalso; apply C; split; reflexivity].
  - destruct (gtb (ofZ (localeCompare (symbol t) (symbol u))) zero) eqn:G.
    + apply gtb_ofZ in G. split; [discriminate | lia].
    + split; [intros _ | reflexivity].
      assert (~ 0 < localeCompare (symbol t) (symbol u))
        by (rewrite <- gtb_ofZ; congruence). lia.
Qed.

Lemma precedes_total (symbols : list string) (t u : Trade) :
  consistentOn localeCompare symbols -> In (symbol t) symbols -> In (symbol u) symbols ->
  sortable parseISO t -> sortable parseISO u ->
  ~ precedes localeCompare parseISO t u -> precedes localeCompare parseISO u t.
Proof.
  intros (Anti & _ & _) It Iu [St Dt] [Su Du]. unfold precedes.
  rewrite (String.eqb_sym (symbol u) (symbol t)).
  destruct (String.eqb (symbol t) (symbol u)).
  - destruct (parseDate parseISO (date t)) as [a |]; [| contradiction].
    destruct (parseDate parseISO (date u)) as [b |]; [| contradiction].
    intro N. destruct (Z.lt_trichotomy a b) as [L | [E | L]].
    + exfalso. apply N. left. exact L.
    + right. split; [symmetry; exact E |]. intros [Us Tb].
      apply N. right. split; [exact E |]. intros [Ts Ub]. congruence.
    + left. exact L.
  - intro N. specialize (Anti _ _ It Iu). lia.
Qed.

Lemma precedes_trans (symbols : list string) (t u v : Trade) :
  consistentOn localeCompare symbols ->
  In (symbol t) symbols -> In (symbol u) symbols -> In (symbol v) symbols ->
  sortable parseISO t -> sortable parseISO u -> sortable parseISO v ->
  precedes localeCompare parseISO t u -> precedes localeCompare parseISO u v -> precedes localeCompare parseISO t v.
Proof.
  intros (Anti & Zero & Trans) It Iu Iv [St Dt] [Su Du] [Sv Dv]. unfold precedes.
  destruct (String.eqb_spec (symbol t) (symbol u)) as [Etu | Ntu];
    destruct (String.eqb_spec (symbol u) (symbol v)) as [Euv | Nuv];
    destruct (String.eqb_spec (symbol t) (symbol v)) as [Etv | Ntv];
    try congruence.
  - destruct (parseDate parseISO (date t)) as [a |]; [| contradiction].
    destruct (parseDate parseISO (date u)) as [b |]; [| contradiction].
    destruct (parseDate parseISO (date v)) as [c |]; [| contradiction].
    intros [L1 | [E1 N1]] [L2 | [E2 N2]]; try (left; lia).
    right. split; [lia |]. intros [Ts Vb].
    destruct Su as [Ub | Us]; [apply N1 | apply N2]; split; assumption.
  - intros L1 L2. exfalso. rewrite <- Etv in L2.
    apply Ntu. exact (Zero _ _ It Iu L1 L2).
  - intros L1 L2. exact (Trans _ _ _ It Iu Iv L1 L2).
Qed.

(** Insertion keeps a list sorted. *)
Lemma insertSorted_sorted {A : Type} (key : A -> Trade) (symbols : list string)
  (x : A) (l : list A) :
  consistentOn localeCompare symbols ->
  (forall y, In y (x :: l) -> In (symbol (key y)) symbols /\ sortable parseISO (key y)) ->
  StronglySorted (fun a b => precedes localeCompare parseISO (key a) (key b)) l ->
  StronglySorted (fun a b => precedes localeCompare parseISO (key a) (key b))
    (insertSorted (fun a b => compareTrades localeCompare parseISO (key a) (key b)) x l).
Proof.
  intros C G S. induction S as [| y l S IH F]; cbn [insertSorted].
  - repeat constructor.
  - destruct (G x (or_introl eq_refl)) as [Ix Sx].
    destruct (G y (or_intror (or_introl eq_refl))) as [Iy Sy].
    destruct (gtb (compareTrades localeCompare parseISO (key x) (key y)) zero) eqn:Cmp.
    + constructor.
      * apply IH. intros z [<- | Iz]; apply G; [left | right; right]; auto.
      * apply Forall_forall. intros z Iz.
        apply (insertSorted_In _ z x l) in Iz. destruct Iz as [-> | Iz].
        -- apply (precedes_total symbols); auto.
           rewrite <- compareTrades_gtb by assumption. congruence.
        -- rewrite Forall_forall in F. apply F. exact Iz.
    + apply compareTrades_gtb in Cmp; [| assumption | assumption].
      constructor; [constructor; assumption |].
      constructor; [exact Cmp |].
      apply Forall_forall. intros z Iz. rewrite Forall_forall in F.
      destruct (G z (or_intror (or_intror Iz))) as [Iz' Sz].
      apply (precedes_trans symbols (key x) (key y) (key z)); auto.
Qed.

Lemma sort_sorted {A : Type} (key : A -> Trade) (symbols : list string) (l : list A) :
  consistentOn localeCompare symbols ->
  (forall y, In y l -> In (symbol (key y)) symbols /\ sortable parseISO (key y)) ->
  StronglySorted (fun a b => precedes localeCompare parseISO (key a) (key b))
    (sort (fun a b => compareTrades localeCompare parseISO (key a) (key b)) l).
Proof.
  intros C G. induction l as [| x l IH]; cbn [sort fold_right]; [constructor |].
  apply (insertSorted_sorted key symbols); [exact C | |].
  - intros y [<- | Iy]; [apply G; left; reflexivity |].
    apply sort_In in Iy. apply G. right. exact Iy.
  - apply IH. intros y Iy. apply G. right. exact Iy.
Qed.

Lemma StronglySorted_filter {A : Type} (R : A -> A -> Prop) (f : A -> bool) (l : list A) :
  StronglySorted R l -> StronglySorted R (filter f l).
Proof.
  induction 1 as [| x l S IH F]; cbn [filter]; [constructor |].
  destruct (f x); [| exact IH].
  constructor; [exact IH |].
  apply Forall_forall. intros y Iy. apply filter_In in Iy.
  rewrite Forall_forall in F. apply F. apply Iy.
Qed.

(** X15: when [localeCompare] orders the symbols of the input totally and
    the records are BUY or SELL records with valid dates, the sorted sequence is
    in order: by symbol, within a symbol by date, and within a day no SELL
    before a BUY; so are the BUY lots and the sells split from it, and the
    sequence that [calculatePositions] runs through. *)
Theorem sortedTrades_ordered (h : store) (trades : list ref) :
  consistentOn localeCompare (map (fun r => symbol (h r)) trades) ->
  Forall (fun r => sortable parseISO (h r)) trades ->
  StronglySorted (fun a b => precedes localeCompare parseISO (h a) (h b))
                 (sortedTrades localeCompare parseISO h trades) /\
  StronglySorted (fun a b => precedes localeCompare parseISO (h a) (h b))
                 (buyTrades localeCompare parseISO h trades) /\
  StronglySorted (fun a b => precedes localeCompare parseISO (h a) (h b))
                 (sellTrades localeCompare parseISO h trades) /\
  StronglySorted (precedes localeCompare parseISO)
                 (sort (compareTrades localeCompare parseISO) (map h trades)).
Proof.
  intros C F.
  assert (S : StronglySorted (fun a b => precedes localeCompare parseISO (h a) (h b))
                (sortedTrades localeCompare parseISO h trades)).
  { apply (sort_sorted h (map (fun r => symbol (h r)) trades)); [exact C |].
    intros y Iy. split; [apply (in_map (fun r => symbol (h r))); exact Iy |].
    rewrite Forall_forall in F. apply F. exact Iy. }
  split; [exact S |].
  split; [apply StronglySorted_filter; exact S |].
  split; [apply StronglySorted_filter; exact S |].
  apply (sort_sorted (fun t => t) (map (fun r => symbol (h r)) trades)); [exact C |].
  intros t It. apply in_map_iff in It. destruct It as (r & <- & Ir).
  split; [apply (in_map (fun r => symbol (h r))); exact Ir |].
  rewrite Forall_forall in F. apply F. exact Ir.
Qed.
End Order.

Ltac evalCompare :=
  repeat match goal with
         | |- context [codeUnitCompare ?a ?b] =>
             let v := eval vm_compute in (codeUnitCompare a b) in
             change (codeUnitCompare a b) with v
         end.

Lemma sortedTrades_ordered_witness :
  StronglySorted (fun a b => precedes codeUnitCompare noISO
                               (storeOf twoSymbols a) (storeOf twoSymbols b))
                 (sortedTrades codeUnitCompare noISO (storeOf twoSymbols) [2; 1; 0]%nat).
Proof.
  apply (sortedTrades_ordered codeUnitCompare noISO (storeOf twoSymbols) [2; 1; 0]%nat).
  - cbn [map storeOf nth twoSymbols trade symbol].
    split; [| split].
    + intros x y [<- | [<- | [<- | []]]] [<- | [<- | [<- | []]]];
        evalCompare; intros; lia.
    + intros x y [<- | [<- | [<- | []]]] [<- | [<- | [<- | []]]];
        evalCompare; intros; try reflexivity; lia.
    + intros x y z [<- | [<- | [<- | []]]] [<- | [<- | [<- | []]]]
             [<- | [<- | [<- | []]]];
        evalCompare; intros; lia.
  - repeat apply Forall_cons; try apply Forall_nil;
      (split; [cbn; auto | vm_compute; discriminate]).
Defined.


(** ** Invalid dates *)

Section InvalidDates.

Variable localeCompare : string -> string -> Z.
Variable parseISO : string -> Date.

(** The holding period of a pair is computed from the dates of its SELL
    record and of a BUY record of the input. *)
Lemma pair_holdingPeriod (h : store) (trades : list ref) (p : TradePair) :
  In p (snd (calculateFIFOPairs localeCompare parseISO h trades)) ->
  exists first,
    In first trades /\
    holdingPeriod p
    = differenceInDays (parseDate parseISO (date (h (sellTrade p))))
                       (parseDate parseISO (date (h first))).
Proof.
  unfold calculateFIFOPairs. intro I.
  apply matchSells_In in I. destruct I as (h0 & s & Is & F0 & Ip).
  apply sellTrades_In in Is. destruct Is as [It Ns].
  set (buys := buyTrades localeCompare parseISO h trades) in *.
  assert (Nb : ~ In s buys).
  { unfold buys. rewrite buyTrades_In. intros [_ B]. contradiction. }
  unfold matchSell in Ip.
  pose proof (matchLots_frames s buys h0 (quantity (h0 s)) []) as F1.
  destruct (matchLots_matched s buys h0 (quantity (h0 s)) []) as (new & En & Fn).
  destruct (matchLots h0 s buys (quantity (h0 s)) []) as [[h1 rem] matched].
  cbn [fst snd app] in F1, En. subst matched.
  destruct new as [| [first qty] rest]; [destruct Ip |].
  destruct (eqb rem zero); [| destruct Ip].
  destruct Ip as [<- | []].
  pose proof (frames_trans _ _ _ _ F0 F1) as F.
  exists first. split.
  - inversion Fn as [| ? ? [Ib _] _]; subst. cbn [fst] in Ib.
    unfold buys in Ib. apply buyTrades_In in Ib. apply Ib.
  - unfold makePair. cbn [holdingPeriod sellTrade].
    rewrite !(frames_date _ _ _ _ F). reflexivity.
Qed.

(** X16: a date written with ["/"] but with fewer than three parts is an
    Invalid Date; the comparator gives NaN for two records of one symbol as
    soon as one of their dates is invalid, which the sort takes as 'equal'; and
    a pair whose SELL record has an invalid date is still emitted, with a
    holding period of NaN. *)
Theorem invalid_dates (h : store) (trades : list ref) :
  (forall s, includes "/" s = true ->
             nth_error (JSString.split "/" s) 2 = None ->
             parseDate parseISO s = None) /\
  (forall a b,
      symbol a = symbol b ->
      parseDate parseISO (date a) = None \/ parseDate parseISO (date b) = None ->
      compareTrades localeCompare parseISO a b = NaN) /\
  (forall p,
      In p (snd (calculateFIFOPairs localeCompare parseISO h trades)) ->
      parseDate parseISO (date (h (sellTrade p))) = None ->
      holdingPeriod p = NaN).
Proof.
  split; [| split].
  - intros s I N. unfold parseDate. rewrite I, N. reflexivity.
  - intros a b E D. unfold compareTrades.
    rewrite (proj2 (String.eqb_eq _ _) E). cbn [negb].
    destruct D as [D | D]; rewrite D; cbn [getTime].
    + reflexivity.
    + destruct (getTime (parseDate parseISO (date a))); reflexivity.
  - intros p I D. destruct (pair_holdingPeriod h trades p I) as (first & _ & ->).
    rewrite D. reflexivity.
Qed.

End InvalidDates.

Lemma invalid_dates_witness :
  exists p,
    snd (calculateFIFOPairs codeUnitCompare noISO (storeOf badDate) [0; 1]%nat) = [p] /\
    holdingPeriod p = NaN.
Proof.
  destruct (snd (calculateFIFOPairs codeUnitCompare noISO (storeOf badDate) [0; 1]%nat))
    as [| p l] eqn:E; [vm_compute in E; discriminate E |].
  assert (S : sellTrade p = 1%nat /\ l = [])
    by (vm_compute in E; injection E as <- <-; split; reflexivity).
  destruct S as [S ->].
  exists p. split; [reflexivity |].
  destruct (invalid_dates codeUnitCompare noISO (storeOf badDate) [0; 1]%nat)
    as (_ & _ & H).
  apply H.
  - rewrite E. left. reflexivity.
  - rewrite S. vm_compute. reflexivity.
Defined.

(** ** The analysis of the trade pairs *)

Lemma sumPnL_losses (pairs : list TradePair) :
  forall acc,
    notPositive acc ->
    Forall (fun p => isLoss p = true) pairs ->
    notPositive (fold_left (fun sum p => (sum + realizedPnL p)%num) pairs acc).
Proof.
  induction pairs as [| p rest IH]; intros acc Na F; cbn [fold_left]; [exact Na |].
  inversion F as [| ? ? Lp Fr]; subst. apply IH; [| exact Fr].
  unfold isLoss in Lp.
  destruct Na as [-> | (a & -> & La)];
    destruct (realizedPnL p) as [| | | x]; try discriminate Lp.
  - left. reflexivity.
  - left. reflexivity.
  - left. reflexivity.
  - right. exists (Qred (a + x)). split; [reflexivity |].
    unfold ltb, zero in Lp. apply Qltb_lt in Lp. rewrite Qred_correct. lra.
Qed.

Lemma lengthOf_positive {A : Type} (xs : list A) :
  gtb (lengthOf xs) zero = true ->
  exists k, lengthOf xs = Fin k /\ (0 < k)%Q.
Proof.
  intro G. exists (inject_Z (Z.of_nat (List.length xs))).
  split; [reflexivity | apply gtb_zero_Fin; exact G].
Qed.

Lemma notPositive_div (a : number) (k : Q) :
  notPositive a -> (0 < k)%Q -> notPositive (a / Fin k)%num.
Proof.
  intros [-> | (q & -> & Lq)] Pk.
  - left. unfold div. rewrite (proj2 (Qltb_ge k 0)) by lra. reflexivity.
  - right. rewrite div_Fin by lra. exists (Qred (q / k)). split; [reflexivity |].
    rewrite Qred_correct. unfold Qdiv.
    assert (0 < / k)%Q by (apply Qinv_lt_0_compat; exact Pk).
    setoid_replace (q * / k)%Q with (- ((- q) * / k))%Q by ring.
    assert (0 <= (- q) * / k)%Q by (apply Qmult_le_0_compat; lra).
    lra.
Qed.

Lemma avgLoss_notPositive (tradePairs : list TradePair) :
  notPositive (avgLoss (analyse tradePairs)).
Proof.
  unfold analyse. cbn [avgLoss].
  destruct (gtb (lengthOf (filter isLoss tradePairs)) zero) eqn:G.
  - destruct (lengthOf_positive _ G) as (k & -> & Pk).
    apply notPositive_div; [| exact Pk].
    apply sumPnL_losses.
    + right. exists 0%Q. split; [reflexivity | lra].
    + apply Forall_forall. intros p I. apply filter_In in I. apply I.
  - right. exists 0%Q. split; [reflexivity | lra].
Qed.

(** X17: the condition of the insight 'Risk Management Issue',
    [avgLoss > Math.abs(avgWin)], never holds: the average of the losing pairs
    is never positive, and an absolute value is never negative. *)
Theorem riskManagementIssue_never (tradePairs : list TradePair) :
  riskManagementIssue (analyse tradePairs) = false.
Proof.
  unfold riskManagementIssue, gtb.
  pose proof (avgLoss_notPositive tradePairs) as N.
  destruct (avgWin (analyse tradePairs)) as [| | | w];
    destruct N as [-> | (q & -> & Lq)]; try reflexivity.
  - unfold Math_abs. destruct (Qltb w 0); reflexivity.
  - unfold Math_abs. destruct (Qltb w 0) eqn:L.
    + apply Qltb_lt in L. unfold fin, ltb. apply Qltb_ge. rewrite Qred_correct. lra.
    + apply Qltb_ge in L. unfold ltb. apply Qltb_ge. lra.
Qed.

Lemma filter_two_length {A : Type} (f g : A -> bool) (l : list A) :
  (forall x, f x = true -> g x = false) ->
  (List.length (filter f l) + List.length (filter g l) <= List.length l)%nat.
Proof.
  intro D. induction l as [| x l IH]; cbn [filter List.length]; [lia |].
  destruct (f x) eqn:Fx.
  - rewrite (D x Fx). cbn [List.length]. lia.
  - destruct (g x); cbn [List.length]; lia.
Qed.

Lemma win_not_loss (p : TradePair) : isWin p = true -> isLoss p = false.
Proof.
  unfold isWin, isLoss, gtb. destruct (realizedPnL p) as [| | | x]; try discriminate;
    try reflexivity.
  unfold ltb, zero. rewrite Qltb_lt, Qltb_ge. lra.
Qed.

(** X18: winning and losing pairs together are at most all the pairs, and
    the win rate is a finite number between 0 and 100. *)
Theorem analyse_winRate_bounds (tradePairs : list TradePair) :
  (List.length (filter isWin tradePairs) + List.length (filter isLoss tradePairs)
   <= List.length tradePairs)%nat /\
  exists r, winRate (analyse tradePairs) = Fin r /\ (0 <= r)%Q /\ (r <= 100)%Q.
Proof.
  split; [apply filter_two_length, win_not_loss |].
  unfold analyse. cbn [winRate].
  destruct (gtb (lengthOf tradePairs) zero) eqn:G;
    [| exists 0%Q; split; [reflexivity | lra]].
  destruct (lengthOf_positive _ G) as (k & Ek & Pk).
  unfold lengthOf, ofZ in *. injection Ek as <-.
  rewrite div_Fin by lra.
  change (Fin ?x * Fin (inject_Z 100))%num with (fin (x * 100)).
  eexists. split; [reflexivity |].
  pose proof (filter_length_le isWin tradePairs) as L.
  set (w := List.length (filter isWin tradePairs)) in *.
  set (n := List.length tradePairs) in *.
  assert (Lw : (inject_Z (Z.of_nat w) <= inject_Z (Z.of_nat n))%Q)
    by (rewrite <- Zle_Qle; lia).
  assert (Nw : (0 <= inject_Z (Z.of_nat w))%Q)
    by (change 0%Q with (inject_Z 0); rewrite <- Zle_Qle; lia).
  rewrite !Qred_correct.
  assert (Pi : (0 < / inject_Z (Z.of_nat n))%Q) by (apply Qinv_lt_0_compat; exact Pk).
  unfold Qdiv. split.
  - assert (0 <= inject_Z (Z.of_nat w) * / inject_Z (Z.of_nat n))%Q
      by (apply Qmult_le_0_compat; lra). lra.
  - assert (inject_Z (Z.of_nat w) * / inject_Z (Z.of_nat n) <= 1)%Q.
    { apply Qle_shift_div_r; [exact Pk | lra]. }
    lra.
Qed.

Lemma analyse_example :
  winRate (analyse winAndLoss) = ofZ 50 /\
  avgLoss (analyse winAndLoss) = ofZ (-20) /\
  avgWin (analyse winAndLoss) = ofZ 500 /\
  lowWinRate (analyse winAndLoss) = false.
Proof. repeat split; vm_compute; reflexivity. Qed.


(** ** First in, first out *)

Lemma In_matched_refs (sell : ref) (buys : list ref) (h : store)
  (remaining : number) (matched : list (ref * number)) (c : ref) (q : number) :
  In (c, q) (snd (matchLots h sell buys remaining matched)) ->
  In c (map fst matched) \/ In c buys.
Proof.
  destruct (matchLots_matched sell buys h remaining matched) as (new & -> & F).
  intro I. apply in_app_or in I. destruct I as [I | I].
  - left. apply (in_map fst) in I. exact I.
  - right. rewrite Forall_forall in F. apply (F (c, q) I).
Qed.

Lemma matchLots_fifo (sell : ref) (l1 : list ref) :
  forall h remaining matched b l2,
    NoDup (l1 ++ b :: l2) ->
    (forall c, In c l2 -> ~ In c (map fst matched)) ->
    symbol (h b) = symbol (h sell) ->
    (exists c q, In c l2 /\
                 In (c, q) (snd (matchLots h sell (l1 ++ b :: l2) remaining matched))) ->
    gtb (quantity (fst (fst (matchLots h sell (l1 ++ b :: l2) remaining matched)) b))
        zero = false.
Proof.
  induction l1 as [| a l1 IH]; intros h remaining matched b l2 ND Fresh Sy (c & q & Ic & Im).
  - cbn [app] in *. inversion ND as [| ? ? Nb ND2]; subst.
    cbn [matchLots] in *.
    destruct (gtb remaining zero) eqn:Pr.
    2:{ exfalso. cbn [snd] in Im. apply (Fresh c Ic).
        apply (in_map fst) in Im. exact Im. }
    rewrite (proj2 (String.eqb_eq _ _) Sy) in *. cbn [andb] in *.
    destruct (gtb (quantity (h b)) zero) eqn:Pl.
    + set (m := Math_min remaining (quantity (h b))) in *.
      set (h1 := update h b (setQuantity (h b) (quantity (h b) - m)%num)) in *.
      destruct (matchLots_frames sell l2 h1 (remaining - m)%num (matched ++ [(b, m)]) b)
        as (_ & O & _).
      rewrite (O Nb). unfold h1. rewrite update_same. cbn [quantity setQuantity].
      destruct (gtb (remaining - m)%num zero) eqn:Pr'.
      * apply lot_emptied; assumption.
      * exfalso. rewrite matchLots_stopped in Im by exact Pr'. cbn [snd] in Im.
        apply in_app_or in Im. destruct Im as [Im | [E | []]].
        -- apply (Fresh c Ic). apply (in_map fst) in Im. exact Im.
        -- injection E as -> _. contradiction.
    + destruct (matchLots_frames sell l2 h remaining matched b) as (_ & O & _).
      rewrite (O Nb). exact Pl.
  - cbn [app] in *. inversion ND as [| ? ? Na ND2]; subst.
    assert (Nab : b <> a).
    { intros ->. apply Na. apply in_or_app. right. left. reflexivity. }
    assert (Nac : c <> a).
    { intros ->. apply Na. apply in_or_app. right. right. exact Ic. }
    cbn [matchLots] in *.
    destruct (gtb remaining zero) eqn:Pr.
    2:{ exfalso. cbn [snd] in Im. apply (Fresh c Ic).
        apply (in_map fst) in Im. exact Im. }
    destruct (String.eqb (symbol (h a)) (symbol (h sell))
              && gtb (quantity (h a)) zero) eqn:M.
    + set (m := Math_min remaining (quantity (h a))) in *.
      set (h1 := update h a (setQuantity (h a) (quantity (h a) - m)%num)) in *.
      assert (S1 : forall x, symbol (h1 x) = symbol (h x)).
      { intro x. unfold h1, update. destruct (Nat.eqb_spec x a) as [-> | _]; reflexivity. }
      apply (IH h1 (remaining - m)%num (matched ++ [(a, m)]) b l2 ND2).
      * intros c' Ic' I'. rewrite map_app in I'. apply in_app_or in I'.
        destruct I' as [I' | [E | []]]; [exact (Fresh c' Ic' I') |].
        cbn [fst] in E. subst c'. apply Na. apply in_or_app. right. right. exact Ic'.
      * rewrite !S1. exact Sy.
      * exists c, q. split; assumption.
    + apply (IH h remaining matched b l2 ND2 Fresh Sy).
      exists c, q. split; assumption.
Qed.

Lemma StronglySorted_snoc {A : Type} (R : A -> A -> Prop) (l : list A) (x : A) :
  StronglySorted R l -> Forall (fun y => R y x) l -> StronglySorted R (l ++ [x]).
Proof.
  induction 1 as [| y l S IH F]; intro G; cbn [app].
  - repeat constructor.
  - inversion G as [| ? ? Ryx Gl]; subst.
    constructor; [apply IH; exact Gl |].
    apply Forall_app. split; [exact F | repeat constructor; exact Ryx].
Qed.

Lemma matchLots_in_order (R : ref -> ref -> Prop) (sell : ref) (buys : list ref) :
  forall h remaining matched,
    StronglySorted R buys ->
    StronglySorted R (map fst matched) ->
    (forall x y, In x (map fst matched) -> In y buys -> R x y) ->
    StronglySorted R (map fst (snd (matchLots h sell buys remaining matched))).
Proof.
  induction buys as [| b rest IH]; intros h remaining matched Sb Sm Cross;
    cbn [matchLots].
  - exact Sm.
  - inversion Sb as [| ? ? Sr Fb]; subst.
    destruct (gtb remaining zero); [| exact Sm].
    destruct (String.eqb (symbol (h b)) (symbol (h sell))
              && gtb (quantity (h b)) zero).
    + apply IH; [exact Sr | |].
      * rewrite map_app. apply StronglySorted_snoc; [exact Sm |].
        apply Forall_forall. intros y Iy. apply Cross; [exact Iy | left; reflexivity].
      * intros x y Ix Iy. rewrite map_app in Ix. apply in_app_or in Ix.
        destruct Ix as [Ix | [<- | []]].
        -- apply Cross; [exact Ix | right; exact Iy].
        -- rewrite Forall_forall in Fb. apply Fb. exact Iy.
    + apply IH; [exact Sr | exact Sm |].
      intros x y Ix Iy. apply Cross; [exact Ix | right; exact Iy].
Qed.

(** X19: first in, first out: when the scan for a sell takes from a lot,
    every lot of the sell's symbol that comes before it in the list of lots is
    left without quantity. *)
Theorem matchLots_first_in_first_out (h : store) (s : ref) (l1 l2 : list ref)
  (b c : ref) (q : number) :
  NoDup (l1 ++ b :: l2) ->
  symbol (h b) = symbol (h s) ->
  In c l2 ->
  In (c, q) (snd (matchLots h s (l1 ++ b :: l2) (quantity (h s)) [])) ->
  gtb (quantity (scanStore h (l1 ++ b :: l2) s b)) zero = false.
Proof.
  intros ND Sy Ic Im. unfold scanStore.
  apply matchLots_fifo; [exact ND | intros c' _ [] | exact Sy |].
  exists c, q. split; assumption.
Qed.

Lemma matchLots_first_in_first_out_witness :
  gtb (quantity (scanStore (storeOf twoLots) [0; 1]%nat 2%nat 0%nat)) zero = false.
Proof.
  apply (matchLots_first_in_first_out (storeOf twoLots) 2%nat [] [1%nat]
           0%nat 1%nat (ofZ 20)).
  - repeat constructor; cbn; intuition discriminate.
  - reflexivity.
  - left. reflexivity.
  - vm_compute. right. left. reflexivity.
Defined.

Section Chronological.

Variable localeCompare : string -> string -> Z.
Variable parseISO : string -> Date.

(** X20: the lots that a sell consumes are recorded oldest first: with
    symbols that [localeCompare] orders totally and BUY or SELL records with
    valid dates, the contributions of every scan over the BUY lots are in the
    order of the sort, by date within the symbol. *)
Theorem contributions_chronological (h : store) (trades : list ref)
  (h0 : store) (s : ref) (remaining : number) :
  consistentOn localeCompare (map (fun r => symbol (h r)) trades) ->
  Forall (fun r => sortable parseISO (h r)) trades ->
  StronglySorted (fun a b => precedes localeCompare parseISO (h a) (h b))
    (map fst (snd (matchLots h0 s (buyTrades localeCompare parseISO h trades)
                     remaining []))).
Proof.
  intros C F. apply matchLots_in_order.
  - unfold buyTrades, sortedTrades. apply StronglySorted_filter.
    apply (sort_sorted localeCompare parseISO h (map (fun r => symbol (h r)) trades));
      [exact C |].
    intros y Iy. split; [apply (in_map (fun r => symbol (h r))); exact Iy |].
    rewrite Forall_forall in F. apply F. exact Iy.
  - constructor.
  - intros x y [].
Qed.

End Chronological.

Lemma contributions_chronological_witness :
  StronglySorted (fun a b => precedes codeUnitCompare noISO
                               (storeOf twoLots a) (storeOf twoLots b))
    (map fst (snd (matchLots (storeOf twoLots) 2%nat
                     (buyTrades codeUnitCompare noISO (storeOf twoLots) [2; 1; 0]%nat)
                     (ofZ 120) []))).
Proof.
  apply (contributions_chronological codeUnitCompare noISO (storeOf twoLots)
           [2; 1; 0]%nat (storeOf twoLots) 2%nat (ofZ 120)).
  - cbn [map storeOf nth twoLots trade symbol].
    split; [| split].
    + intros x y [<- | [<- | [<- | []]]] [<- | [<- | [<- | []]]];
        evalCompare; intros; lia.
    + intros x y [<- | [<- | [<- | []]]] [<- | [<- | [<- | []]]];
        evalCompare; intros; try reflexivity; lia.
    + intros x y z [<- | [<- | [<- | []]]] [<- | [<- | [<- | []]]]
             [<- | [<- | [<- | []]]];
        evalCompare; intros; lia.
  - repeat apply Forall_cons; try apply Forall_nil;
      (split; [cbn; auto | vm_compute; discriminate]).
Defined.
